(** * VeoBatch: the job queue of [src/App.tsx] and its video-generation client

    A shallow embedding of the queue logic of [App.tsx] (batch add, the
    queue processor effect, retry, delete, clear) and of
    [services/geminiService.ts] (the client [generateVideoWithVeo]),
    followed by the properties of the specification that concern them.

    Conventions of the embedding.
    - A JavaScript string is the list of its UTF-16 code units ([Js.str]).
    - [useState] cells are fields of [State]; a setter called with an updater
      ([setJobs (prev => ...)]) applies the updater to the latest value.
    - [useRef] is a mutable field of [State] ([processingRef]).
    - [jobs] (line 11) and [apiKeyReady] (line 9) are [const] bindings of one
      render. The effect callback of lines 59-119, and the [processQueue] it
      defines, close over them: every read of [jobs] and [apiKeyReady] in
      [processQueue] (lines 64, 74, 80), also in the call it makes to itself
      at line 112, sees the values of the render that created the callback
      ([Closure]), not the latest state.
    - An [async] function runs synchronously up to its first [await]; a call
      suspended at the [await] of line 84 is a [Frame] in [awaiting].
    - [crypto.randomUUID()] and [Date.now()] are oracles of the environment,
      indexed by the number of calls made so far.
    - Nobody awaits the promise of [processQueue] (lines 112, 117): what is
      thrown inside it, the RangeError of a full call stack included, stays
      in that promise, and the caller goes on ([processQueueOnStack]). *)

From Stdlib Require Import String Ascii List ZArith NArith Bool Lia Arith.
Import ListNotations.

Set Implicit Arguments.

(* ------------------------------------------------------------------ *)
(** ** JavaScript strings *)

Module Js.

Definition str := list N.

(** A string literal of the source, as code units. *)
Definition lit (s : string) : str := map N_of_ascii (list_ascii_of_string s).

Fixpoint eqb (a b : str) : bool :=
  match a, b with
  | [], [] => true
  | x :: a', y :: b' => N.eqb x y && eqb a' b'
  | _, _ => false
  end.

(** ECMAScript WhiteSpace and LineTerminator code points, the ones
    [String.prototype.trim] strips. *)
Definition isWhiteSpace (c : N) : bool :=
  existsb (N.eqb c)
    [9; 10; 11; 12; 13; 32; 160; 5760; 8232; 8233; 8239; 8287; 12288; 65279]%N
  || (N.leb 8192 c && N.leb c 8202).

Fixpoint trimStart (s : str) : str :=
  match s with
  | [] => []
  | c :: s' => if isWhiteSpace c then trimStart s' else s
  end.

Definition trimEnd (s : str) : str := rev (trimStart (rev s)).

Definition trim (s : str) : str := trimEnd (trimStart s).

(** [s.split(sep)] for a separator of one code unit: never empty,
    [''.split(sep)] is [['']]. *)
Fixpoint split (sep : N) (s : str) : list str :=
  match s with
  | [] => [[]]
  | c :: s' =>
      if N.eqb c sep then [] :: split sep s'
      else match split sep s' with
           | [] => [[c]]
           | l :: ls => (c :: l) :: ls
           end
  end.

Fixpoint startsWith (s pat : str) : bool :=
  match pat, s with
  | [], _ => true
  | p :: pat', c :: s' => N.eqb c p && startsWith s' pat'
  | _ :: _, [] => false
  end.

Fixpoint includes (s pat : str) : bool :=
  startsWith s pat ||
  match s with
  | [] => false
  | _ :: s' => includes s' pat
  end.

(** Truthiness of a string: the empty string is falsy. *)
Definition truthy (s : str) : bool :=
  match s with [] => false | _ :: _ => true end.

(** [arr.findIndex(p)], with [None] for -1. *)
Fixpoint findIndex {A} (p : A -> bool) (l : list A) : option nat :=
  match l with
  | [] => None
  | x :: l' => if p x then Some 0
               else match findIndex p l' with
                    | Some i => Some (S i)
                    | None => None
                    end
  end.

(** [ls.join(sep)] for a separator of one code unit. *)
Fixpoint join (sep : N) (ls : list str) : str :=
  match ls with
  | [] => []
  | l :: ls' => match ls' with
                | [] => l
                | _ :: _ => l ++ sep :: join sep ls'
                end
  end.

(** [s.slice(0, n)]. *)
Definition slice0 (n : nat) (s : str) : str := firstn n s.

End Js.

(* ------------------------------------------------------------------ *)
(** ** Data model ([src/types.ts]) *)

Inductive JobStatus := PENDING | PROCESSING | COMPLETED | FAILED.

Definition JobStatus_eqb (a b : JobStatus) : bool :=
  match a, b with
  | PENDING, PENDING | PROCESSING, PROCESSING
  | COMPLETED, COMPLETED | FAILED, FAILED => true
  | _, _ => false
  end.

Definition Blob := list Byte.byte.

Record VideoJob := mkVideoJob {
  id : Js.str;
  prompt : Js.str;
  status : JobStatus;
  videoUrl : option Js.str;
  videoBlob : option Blob;
  fileName : option Js.str;
  createdAt : Z;
  completedAt : option Z;
  error : option Js.str
}.

Record GenerateVideoResult := mkResult {
  r_videoUrl : Js.str;
  r_videoBlob : Blob
}.

(** A thrown value with its [message], which may be missing ([error: any]).
    A thrown [undefined] or [null], on which reading [error.message] itself
    throws, is not among these values. *)
Record JsError := mkError { message : option Js.str }.

Definition Error (msg : string) : JsError := mkError (Some (Js.lit msg)).

Definition isPending (j : VideoJob) : bool := JobStatus_eqb (status j) PENDING.

(** The three object spreads of [processQueue] and the one of [retryJob]. *)
Definition withProcessing (j : VideoJob) : VideoJob :=
  mkVideoJob (id j) (prompt j) PROCESSING (videoUrl j) (videoBlob j)
             (fileName j) (createdAt j) (completedAt j) (error j).

Definition withCompleted (result : GenerateVideoResult) (now : Z) (j : VideoJob)
  : VideoJob :=
  mkVideoJob (id j) (prompt j) COMPLETED (Some (r_videoUrl result))
             (Some (r_videoBlob result)) (fileName j) (createdAt j) (Some now)
             (error j).

Definition withFailed (msg : Js.str) (j : VideoJob) : VideoJob :=
  mkVideoJob (id j) (prompt j) FAILED (videoUrl j) (videoBlob j)
             (fileName j) (createdAt j) (completedAt j) (Some msg).

Definition withPending (j : VideoJob) : VideoJob :=
  mkVideoJob (id j) (prompt j) PENDING (videoUrl j) (videoBlob j)
             (fileName j) (createdAt j) (completedAt j) None.

(** [prev.map(j => j.id === target ? f j : j)]. *)
Definition patchById (target : Js.str) (f : VideoJob -> VideoJob)
  (prev : list VideoJob) : list VideoJob :=
  map (fun j => if Js.eqb (id j) target then f j else j) prev.

(* ------------------------------------------------------------------ *)
(** ** Component state of [App] *)

(** The variables an effect callback captures from its render. *)
Record Closure := mkClosure {
  cl_jobs : list VideoJob;
  cl_apiKeyReady : bool
}.

(** A call of [processQueue] suspended at [await generateVideoWithVeo]. *)
Record Frame := mkFrame {
  fr_env : Closure;
  fr_job : VideoJob
}.

Record State := mkState {
  apiKeyReady : bool;
  inputPrompt : Js.str;
  jobs : list VideoJob;
  isProcessing : bool;
  processingRef : bool;
  awaiting : list Frame;      (* client calls in flight *)
  calls : list Js.str;        (* prompts passed to the client so far *)
  uuidCalls : nat;            (* calls of crypto.randomUUID() so far *)
  clockCalls : nat            (* calls of Date.now() so far *)
}.

Definition initialState : State :=
  mkState false [] [] false false [] [] 0 0.

Definition setApiKeyReady (b : bool) (st : State) : State :=
  mkState b (inputPrompt st) (jobs st) (isProcessing st) (processingRef st)
          (awaiting st) (calls st) (uuidCalls st) (clockCalls st).

Definition setInputPrompt (s : Js.str) (st : State) : State :=
  mkState (apiKeyReady st) s (jobs st) (isProcessing st) (processingRef st)
          (awaiting st) (calls st) (uuidCalls st) (clockCalls st).

Definition setJobs (f : list VideoJob -> list VideoJob) (st : State) : State :=
  mkState (apiKeyReady st) (inputPrompt st) (f (jobs st)) (isProcessing st)
          (processingRef st) (awaiting st) (calls st) (uuidCalls st)
          (clockCalls st).

Definition setIsProcessing (b : bool) (st : State) : State :=
  mkState (apiKeyReady st) (inputPrompt st) (jobs st) b (processingRef st)
          (awaiting st) (calls st) (uuidCalls st) (clockCalls st).

Definition setProcessingRef (b : bool) (st : State) : State :=
  mkState (apiKeyReady st) (inputPrompt st) (jobs st) (isProcessing st) b
          (awaiting st) (calls st) (uuidCalls st) (clockCalls st).

Definition suspendAt (fr : Frame) (st : State) : State :=
  mkState (apiKeyReady st) (inputPrompt st) (jobs st) (isProcessing st)
          (processingRef st) (awaiting st ++ [fr])
          (calls st ++ [prompt (fr_job fr)]) (uuidCalls st) (clockCalls st).

(** The [k]-th suspended call leaves [awaiting] when its promise settles. *)
Fixpoint dropNth {A} (k : nat) (l : list A) : list A :=
  match l, k with
  | [], _ => []
  | _ :: l', O => l'
  | x :: l', S k' => x :: dropNth k' l'
  end.

Definition dropFrame (k : nat) (st : State) : State :=
  mkState (apiKeyReady st) (inputPrompt st) (jobs st) (isProcessing st)
          (processingRef st) (dropNth k (awaiting st)) (calls st)
          (uuidCalls st) (clockCalls st).

Definition withCounters (u c : nat) (st : State) : State :=
  mkState (apiKeyReady st) (inputPrompt st) (jobs st) (isProcessing st)
          (processingRef st) (awaiting st) (calls st) u c.

(* ------------------------------------------------------------------ *)
(** ** The client ([src/services/geminiService.ts]) *)

(** What the page gets from the SDK, [fetch] and [URL]: the collaborators
    of [generateVideoWithVeo]. [op_handle] is the server's name for a
    long-running operation. *)
Record Operation := mkOperation {
  op_done : bool;
  op_uri : option Js.str;  (* operation.response?.generatedVideos?.[0]?.video?.uri *)
  op_handle : nat
}.

Record Response := mkResponse {
  ok : bool;
  statusText : Js.str;
  blob : JsError + Blob
}.

Record Sdk := mkSdk {
  API_KEY : Js.str;
  newGoogleGenAI : option JsError;
  generateVideos : Js.str -> JsError + Operation;
  getVideosOperation : Operation -> JsError + Operation;
  fetch : Js.str -> JsError + Response;
  createObjectURL : Blob -> Js.str
}.

Definition entityNotFound : Js.str := Js.lit "Requested entity was not found".

(** [error.message && error.message.includes("Requested entity was not found")] *)
Definition mentionsEntityNotFound (e : JsError) : bool :=
  match message e with
  | Some m => Js.truthy m && Js.includes m entityNotFound
  | None => false
  end.

(** The polling loop of lines 52-56; [None] when [fuel] polls do not
    reach a finished operation. *)
Fixpoint pollUntilDone (fuel : nat) (sdk : Sdk) (operation : Operation)
  : option (JsError + Operation) :=
  if op_done operation then Some (inr operation)
  else match fuel with
       | O => None
       | S fuel' =>
           match getVideosOperation sdk operation with
           | inl e => Some (inl e)
           | inr operation' => pollUntilDone fuel' sdk operation'
           end
       end.

(** [pollsTo sdk k operation r]: [k] polls, each of an operation that is
    not done, lead from [operation] to [r]. *)
Fixpoint pollsTo (sdk : Sdk) (k : nat) (operation r : Operation) : Prop :=
  match k with
  | O => r = operation
  | S k' => op_done operation = false /\
            exists operation',
              getVideosOperation sdk operation = inr operation' /\
              pollsTo sdk k' operation' r
  end.

(** The [try] block, lines 41-81. *)
Definition veoTry (fuel : nat) (sdk : Sdk) (prompt : Js.str)
  : option (JsError + GenerateVideoResult) :=
  match generateVideos sdk prompt with
  | inl e => Some (inl e)
  | inr operation =>
      match pollUntilDone fuel sdk operation with
      | None => None
      | Some (inl e) => Some (inl e)
      | Some (inr operation) =>
          match op_uri operation with
          | None | Some [] =>
              Some (inl (Error "Video generation completed but no URI was returned."))
          | Some videoUri =>
              let downloadUrl := videoUri ++ Js.lit "&key=" ++ API_KEY sdk in
              match fetch sdk downloadUrl with
              | inl e => Some (inl e)
              | inr videoResponse =>
                  if negb (ok videoResponse)
                  then Some (inl (mkError (Some
                         (Js.lit "Failed to download video: "
                            ++ statusText videoResponse))))
                  else match blob videoResponse with
                       | inl e => Some (inl e)
                       | inr b => Some (inr (mkResult (createObjectURL sdk b) b))
                       end
              end
          end
      end
  end.

(** The [catch] block, lines 83-91. *)
Definition veoCatch (error : JsError) : JsError :=
  if mentionsEntityNotFound error
  then Error "API Key session expired or invalid. Please re-select your key."
  else error.

Definition generateVideoWithVeo (fuel : nat) (sdk : Sdk) (prompt : Js.str)
  : option (JsError + GenerateVideoResult) :=
  match newGoogleGenAI sdk with
  | Some e => Some (inl e)
  | None =>
      match veoTry fuel sdk prompt with
      | None => None
      | Some (inl error) => Some (inl (veoCatch error))
      | Some (inr result) => Some (inr result)
      end
  end.

(** [window.aistudio], when the page runs inside AI Studio. A field is
    [None] when the member is not a function; otherwise it holds what the
    call settles with. *)
Record Aistudio := mkAistudio {
  hasSelectedApiKey : option (JsError + bool);
  openSelectKey : option (option JsError)   (* [Some e]: the call rejects *)
}.

(** [checkApiKeyAvailability], lines 7-12. *)
Definition checkApiKeyAvailability (w : option Aistudio) : JsError + bool :=
  match w with
  | Some a => match hasSelectedApiKey a with
              | Some answer => answer
              | None => inr false
              end
  | None => inr false
  end.

(** [promptApiKeySelection], lines 17-24. *)
Definition promptApiKeySelection (w : option Aistudio) : JsError + unit :=
  match w with
  | Some a => match openSelectKey a with
              | Some (Some e) => inl e
              | Some None => inr tt
              | None => inl (Error "AI Studio environment not detected.")
              end
  | None => inl (Error "AI Studio environment not detected.")
  end.

(* ------------------------------------------------------------------ *)
(** ** A sample environment, for the examples *)

Definition sampleUUID (n : nat) : Js.str := Js.lit "job-" ++ [N.of_nat n].

Definition sampleClock (n : nat) : Z := 1000 + Z.of_nat n.

Definition sampleBlob : Blob := [Byte.x00; Byte.x01].

(** An SDK whose operation finishes at the first poll and whose download
    succeeds. *)
Definition sdkSucceeds : Sdk :=
  mkSdk (Js.lit "k") None
        (fun _ => inr (mkOperation false None 1))
        (fun op => inr (mkOperation true (Some (Js.lit "https://v/1?alt=media"))
                                    (op_handle op)))
        (fun _ => inr (mkResponse true (Js.lit "OK") (inr sampleBlob)))
        (fun _ => Js.lit "blob:1").

(** An SDK whose [generateVideos] rejects with the given message. *)
Definition sdkRejects (msg : string) : Sdk :=
  mkSdk (Js.lit "k") None
        (fun _ => inl (Error msg))
        (fun op => inr op)
        (fun _ => inl (Error "unreachable"))
        (fun _ => []).

(** An SDK whose constructor throws the given message. *)
Definition sdkConstructorThrows (msg : string) : Sdk :=
  mkSdk (Js.lit "k") (Some (Error msg))
        (fun _ => inl (Error "unreachable"))
        (fun op => inr op)
        (fun _ => inl (Error "unreachable"))
        (fun _ => []).

(** An SDK whose operation is done at once and whose download answers with
    a status that is not ok. *)
Definition sdkDownloadFails (status : string) : Sdk :=
  mkSdk (Js.lit "k") None
        (fun _ => inr (mkOperation true (Some (Js.lit "https://v/1?alt=media")) 1))
        (fun op => inr op)
        (fun _ => inr (mkResponse false (Js.lit status) (inr sampleBlob)))
        (fun _ => Js.lit "blob:1").

Definition batchText : Js.str :=
  Js.lit "cat on a skateboard" ++ [10; 10]%N ++ Js.lit "in the rain".

Definition abcText : Js.str :=
  Js.lit "A" ++ [10]%N ++ Js.lit "B" ++ [10]%N ++ Js.lit "C".


(** A store with a failed job, a completed job and a pending job, no
    drain running and the key ready. *)
Definition failedJob : VideoJob :=
  mkVideoJob (sampleUUID 0) (Js.lit "A") FAILED None None None 1000 None
             (Some (Js.lit "quota exceeded")).

Definition completedJob : VideoJob :=
  mkVideoJob (sampleUUID 1) (Js.lit "B") COMPLETED (Some (Js.lit "blob:1"))
             (Some sampleBlob) None 1001 (Some 1002%Z) None.

Definition pendingJob : VideoJob :=
  mkVideoJob (sampleUUID 2) (Js.lit "C") PENDING None None None 1003 None None.

Definition sampleStore : State :=
  mkState true [] [failedJob; completedJob; pendingJob] false false [] [] 3 4.


(** A store whose key is not ready, with a PENDING job behind a
    COMPLETED one and no drain running. *)
Definition notReadyStore : State :=
  mkState false [] [completedJob; pendingJob] false false [] [] 3 4.

(** ** The engine's call stack *)

(** On a closure that is not ready no [await] is reached, so the call of
    line 112 nests inside the activation that makes it, and the engine's
    call stack bounds the nesting. An engine is described by the stack an
    activation of [processQueue] takes and by the stack each call made from
    an activation needs, all in one unit; a call that does not fit throws
    the engine's RangeError and has no effect. *)
Record Engine := mkEngine {
  frameSize : nat;          (* an activation takes [S frameSize] units *)
  needFindIndex : nat;      (* jobs.findIndex, line 64 *)
  needSetState : nat;       (* setIsProcessing, setJobs, setApiKeyReady *)
  needNewError : nat;       (* new Error, line 81 *)
  needConsoleError : nat;   (* console.error, line 96 *)
  needIncludes : nat;       (* error.message.includes, line 99 *)
  needClient : nat;         (* generateVideoWithVeo, line 84 *)
  overflowMessage : Js.str  (* the message of the engine's RangeError *)
}.

Definition overflowError (e : Engine) : JsError :=
  mkError (Some (overflowMessage e)).

(** An engine in which the setters need the most stack, and one in which
    [console.error] needs more. *)
Definition sampleEngine : Engine :=
  mkEngine 0 1 3 1 2 1 2 (Js.lit "Maximum call stack size exceeded").

Definition loggingEngine : Engine :=
  mkEngine 0 1 1 1 9 1 2 (Js.lit "Maximum call stack size exceeded").

(** [eval_to_state t st H]: evaluate the closed run [t], name the state
    it returns [st] and record [H : t = Some st]. *)
Ltac eval_to_state t st H :=
  let v := eval vm_compute in t in
  match v with
  | Some ?s => pose (st := s); assert (H : t = Some st) by (vm_compute; reflexivity)
  end.

(* ------------------------------------------------------------------ *)
(** ** The operations of [App] *)

Section App.

Variable randomUUID : nat -> Js.str.  (* the n-th crypto.randomUUID() *)
Variable dateNow : nat -> Z.          (* the n-th Date.now() *)

(** [lines.map(line => ({ id: crypto.randomUUID(), prompt: line.trim(),
    status: JobStatus.PENDING, createdAt: Date.now() }))],
    from oracle positions [u] and [c]. *)
Fixpoint newJobsFrom (u c : nat) (lines : list Js.str) : list VideoJob :=
  match lines with
  | [] => []
  | line :: rest =>
      mkVideoJob (randomUUID u) (Js.trim line) PENDING None None None
                 (dateNow c) None None
      :: newJobsFrom (S u) (S c) rest
  end.

Definition handleAddJobs (st : State) : State :=
  if negb (Js.truthy (Js.trim (inputPrompt st))) then st
  else
    let lines :=
      filter (fun line => 0 <? length (Js.trim line))
             (Js.split 10 (inputPrompt st)) in
    let newJobs := newJobsFrom (uuidCalls st) (clockCalls st) lines in
    let st := withCounters (uuidCalls st + length lines)
                           (clockCalls st + length lines) st in
    let st := setJobs (fun prev => prev ++ newJobs) st in
    setInputPrompt [] st.

(** The updater of lines 87-93. [Date.now()] sits inside the [map]
    callback: it is called once for each job whose id matches. *)
Fixpoint completeById (target : Js.str) (result : GenerateVideoResult)
  (c : nat) (prev : list VideoJob) : list VideoJob * nat :=
  match prev with
  | [] => ([], c)
  | j :: rest =>
      if Js.eqb (id j) target
      then let '(rest', c') := completeById target result (S c) rest in
           (withCompleted result (dateNow c) j :: rest', c')
      else let '(rest', c') := completeById target result c rest in
           (j :: rest', c')
  end.

Definition tryCompleted (job : VideoJob) (result : GenerateVideoResult)
  (st : State) : State :=
  let '(jobs', c') := completeById (id job) result (clockCalls st) (jobs st) in
  withCounters (uuidCalls st) c' (setJobs (fun _ => jobs') st).

(** [error.message || "Generation failed"] *)
Definition messageOrDefault (e : JsError) : Js.str :=
  match message e with
  | Some m => if Js.truthy m then m else Js.lit "Generation failed"
  | None => Js.lit "Generation failed"
  end.

(** The [catch] block of [processQueue], lines 95-108. *)
Definition catchBlock (job : VideoJob) (error : JsError) (st : State) : State :=
  let st := if mentionsEntityNotFound error then setApiKeyReady false st
            else st in
  setJobs (patchById (id job) (withFailed (messageOrDefault error))) st.

(** [processQueue], lines 60-114, up to its next suspension. [env] holds
    the [jobs] and [apiKeyReady] of the closure the call is made from;
    the call of line 112 is made from the same closure. [None]: the
    recursion is deeper than [fuel], which for a positive [fuel] happens
    only on a closure that is not ready; [processQueueOnStack] follows that
    path to its end. *)
Fixpoint processQueue (fuel : nat) (env : Closure) (st : State)
  : option State :=
  match fuel with
  | O => None
  | S fuel' =>
      if processingRef st then Some st
      else
        match Js.findIndex isPending (cl_jobs env) with
        | None => Some (setIsProcessing false st)
        | Some nextJobIndex =>
            match nth_error (cl_jobs env) nextJobIndex with
            | None => Some st  (* not reached: findIndex answers an index of the array *)
            | Some job =>
                let st := setProcessingRef true st in
                let st := setIsProcessing true st in
                let st := setJobs (patchById (id job) withProcessing) st in
                if negb (cl_apiKeyReady env)
                then
                  let st := catchBlock job (Error "API Key not connected") st in
                  processQueue fuel' env (setProcessingRef false st)
                else Some (suspendAt (mkFrame env job) st)
            end
        end
  end.

(** What follows the [await] of line 84 once the client call of the frame
    has settled: the outcome write ... *)
Definition outcomeWrite (outcome : JsError + GenerateVideoResult)
  (job : VideoJob) (st : State) : State :=
  match outcome with
  | inr result => tryCompleted job result st
  | inl error => catchBlock job error st
  end.

(** ... and the [finally] block, lines 109-113. *)
Definition finallyBlock (fuel : nat) (env : Closure) (st : State)
  : option State :=
  processQueue fuel env (setProcessingRef false st).

Definition resume (fuel : nat) (outcome : JsError + GenerateVideoResult)
  (fr : Frame) (st : State) : option State :=
  finallyBlock fuel (fr_env fr) (outcomeWrite outcome (fr_job fr) st).

(** The body of the effect, lines 116-118, run on the current render. *)
Definition queueEffect (fuel : nat) (st : State) : option State :=
  if existsb isPending (jobs st)
  then processQueue fuel (mkClosure (jobs st) (apiKeyReady st)) st
  else Some st.

Definition retryJob (target : Js.str) (st : State) : State :=
  setJobs (patchById target withPending) st.

Definition deleteJob (target : Js.str) (st : State) : State :=
  setJobs (filter (fun j => negb (Js.eqb (id j) target))) st.

Definition clearAll (confirmed : bool) (st : State) : State :=
  if confirmed then setJobs (fun _ => []) st else st.

(** [handleConnect]: the key is marked ready unless a call rejects. *)
Definition handleConnect (selected : bool) (st : State) : State :=
  if selected then setApiKeyReady true st else st.

(** The mount effect, lines 18-28; [None]: the check rejects. *)
Definition initCheck (hasKey : option bool) (st : State) : State :=
  match hasKey with
  | Some b => setApiKeyReady b st
  | None => st
  end.

(** ** The component as a transition system *)

Inductive Event :=
| InitCheck (hasKey : option bool)
| Connect (selected : bool)
| TypeInput (text : Js.str)
| AddJobs
| RetryJob (target : Js.str)
| DeleteJob (target : Js.str)
| ClearAll (confirmed : bool)
| QueueEffect
| Settle (k : nat) (sdk : Sdk).

Definition run (fuel : nat) (ev : Event) (st : State) : option State :=
  match ev with
  | InitCheck hasKey => Some (initCheck hasKey st)
  | Connect selected => Some (handleConnect selected st)
  | TypeInput text => Some (setInputPrompt text st)
  | AddJobs => Some (handleAddJobs st)
  | RetryJob target => Some (retryJob target st)
  | DeleteJob target => Some (deleteJob target st)
  | ClearAll confirmed => Some (clearAll confirmed st)
  | QueueEffect => queueEffect fuel st
  | Settle k sdk =>
      match nth_error (awaiting st) k with
      | None => Some st
      | Some fr =>
          match generateVideoWithVeo fuel sdk (prompt (fr_job fr)) with
          | None => None
          | Some outcome => resume fuel outcome fr (dropFrame k st)
          end
      end
  end.

Fixpoint runAll (fuel : nat) (evs : list Event) (st : State) : option State :=
  match evs with
  | [] => Some st
  | ev :: evs' =>
      match run fuel ev st with
      | Some st' => runAll fuel evs' st'
      | None => None
      end
  end.

(** States between two events. *)
Inductive reachable : State -> Prop :=
| reach_init : reachable initialState
| reach_run st ev fuel st' :
    reachable st -> run fuel ev st = Some st' -> reachable st'.

(** Every value the store takes: the states between events, and the
    state between the outcome write and the [finally] block of a
    settling call. *)
Inductive visited : State -> Prop :=
| visit_reachable st : reachable st -> visited st
| visit_outcome st k fr sdk fuel outcome :
    reachable st ->
    nth_error (awaiting st) k = Some fr ->
    generateVideoWithVeo fuel sdk (prompt (fr_job fr)) = Some outcome ->
    visited (outcomeWrite outcome (fr_job fr) (dropFrame k st)).

Definition countProcessing (l : list VideoJob) : nat :=
  length (filter (fun j => JobStatus_eqb (status j) PROCESSING) l).


(** The state in which the [catch] of a failed readiness check hands over
    to the [finally] block. *)
Definition afterNotReady (job : VideoJob) (st : State) : State :=
  setProcessingRef false
    (catchBlock job (Error "API Key not connected")
       (setJobs (patchById (id job) withProcessing)
          (setIsProcessing true (setProcessingRef true st)))).

(** A frame as [processQueue] suspends it: its closure was ready and its
    job is the first PENDING job of the closure's [jobs]. *)
Definition wfFrame (fr : Frame) : Prop :=
  cl_apiKeyReady (fr_env fr) = true /\
  exists i, Js.findIndex isPending (cl_jobs (fr_env fr)) = Some i /\
            nth_error (cl_jobs (fr_env fr)) i = Some (fr_job fr).

(** How a drain stuck on the job with id [target] relates a store to a
    later one: the jobs with that id keep id and prompt and are PROCESSING,
    the other jobs are the same. *)
Definition sameButProcessing (target : Js.str) (j j' : VideoJob) : Prop :=
  if Js.eqb (id j) target
  then id j' = id j /\ prompt j' = prompt j /\ status j' = PROCESSING
  else j' = j.

(** ** [processQueue] on a bounded call stack *)

(** The [catch] block, lines 95-108, with [room] units of stack left. A
    call that does not fit throws out of the block: what follows it in the
    block is not run. *)
Definition catchOnStack (e : Engine) (room : nat) (job : VideoJob)
  (error : JsError) (st : State) : State :=
  if room <? needConsoleError e then st
  else if match message error with
          | Some m => Js.truthy m && (room <? needIncludes e)
          | None => false
          end then st
  else if room <? needSetState e then st
  else catchBlock job error st.

(** [processQueue], lines 60-114, called with [room] units of stack left.
    It is an [async] function: whatever is thrown inside it rejects the
    promise it returns, which nobody awaits (lines 112, 117), so the caller
    goes on with the state as the activation left it. The [finally] block
    runs on every way out of [try] and [catch]. [n] bounds the nesting; it
    is never the limit when [room <= n]. *)
Fixpoint processQueueOnStack (e : Engine) (n room : nat) (env : Closure)
  (st : State) : State :=
  match n with
  | O => st
  | S n' =>
      if room <=? frameSize e then st   (* the activation does not fit *)
      else
        let room := room - S (frameSize e) in
        if processingRef st then st
        else if room <? needFindIndex e then st
        else
          match Js.findIndex isPending (cl_jobs env) with
          | None =>
              if room <? needSetState e then st else setIsProcessing false st
          | Some nextJobIndex =>
              match nth_error (cl_jobs env) nextJobIndex with
              | None => st
              | Some job =>
                  let st := setProcessingRef true st in
                  if room <? needSetState e then st
                  else
                    let st := setIsProcessing true st in
                    if room <? needSetState e then st
                    else
                      let st := setJobs (patchById (id job) withProcessing) st in
                      let thrown :=
                        if negb (cl_apiKeyReady env)
                        then Some (if room <? needNewError e
                                   then overflowError e
                                   else Error "API Key not connected")
                        else if room <? needClient e
                             then Some (overflowError e)
                             else None in
                      match thrown with
                      | None => suspendAt (mkFrame env job) st
                      | Some error =>
                          let st := catchOnStack e room job error st in
                          processQueueOnStack e n' room env
                            (setProcessingRef false st)
                      end
              end
          end
  end.

(** The body of the effect, lines 116-118, run with [room] units of stack. *)
Definition queueEffectOnStack (e : Engine) (room : nat) (st : State) : State :=
  if existsb isPending (jobs st)
  then processQueueOnStack e room room
         (mkClosure (jobs st) (apiKeyReady st)) st
  else st.

(** ** Key selection, statistics and the cards *)

(** [handleConnect], lines 30-40, on an overlay: the state, and the text of
    the alert when a call rejects. *)
Definition connectSelected (w : option Aistudio) : bool :=
  match promptApiKeySelection w with
  | inl _ => false
  | inr _ => match checkApiKeyAvailability w with
             | inl _ => false
             | inr _hasKey => true
             end
  end.

Definition handleConnectVia (w : option Aistudio) (st : State)
  : State * option Js.str :=
  (handleConnect (connectSelected w) st,
   if connectSelected w then None
   else Some (Js.lit "Failed to connect API Key. Please try again.")).

(** The mount effect, lines 18-28, on an overlay. *)
Definition initCheckVia (w : option Aistudio) (st : State) : State :=
  initCheck (match checkApiKeyAvailability w with
             | inr hasKey => Some hasKey
             | inl _ => None
             end) st.

(** Lines 137-138. *)
Definition completedCount (st : State) : nat :=
  List.length (filter (fun j => JobStatus_eqb (status j) COMPLETED) (jobs st)).

Definition pendingCount (st : State) : nat :=
  List.length (filter (fun j => JobStatus_eqb (status j) PENDING) (jobs st)).

(** What [JobCard] ([src/components/JobCard.tsx]) renders for a job. *)
Record CardView := mkCardView {
  cv_color : Js.str;              (* getStatusColor(job.status) *)
  cv_idLabel : Js.str;            (* job.id.slice(0, 4), shown after # *)
  cv_statusLabel : JobStatus;
  cv_delete : Js.str;             (* the id the remove button gives onDelete *)
  cv_video : option Js.str;       (* src of the video element *)
  cv_prompt : Js.str;
  cv_download : option (option (Js.str * Js.str));
    (* the Download button; inside, href and file name when a click downloads *)
  cv_errorText : option Js.str;   (* the text above the Retry button *)
  cv_retry : option Js.str;       (* the id the Retry button gives onRetry *)
  cv_durationMs : option Z        (* completedAt - createdAt, shown over 1000 *)
}.

Definition getStatusColor (s : JobStatus) : Js.str :=
  match s with
  | PENDING => Js.lit "border-gray-700 bg-gray-800/50"
  | PROCESSING => Js.lit "border-blue-500/50 bg-blue-900/10"
  | COMPLETED => Js.lit "border-green-500/50 bg-green-900/10"
  | FAILED => Js.lit "border-red-500/50 bg-red-900/10"
  end.

(** [handleDownload], lines 22-31: nothing happens without a video URL. *)
Definition handleDownload (job : VideoJob) : option (Js.str * Js.str) :=
  match videoUrl job with
  | Some url =>
      if Js.truthy url
      then Some (url, Js.lit "veo-video-" ++ Js.slice0 6 (id job) ++ Js.lit ".mp4")
      else None
  | None => None
  end.

Definition JobCard (job : VideoJob) : CardView :=
  mkCardView
    (getStatusColor (status job))
    (Js.slice0 4 (id job))
    (status job)
    (id job)
    (if JobStatus_eqb (status job) COMPLETED
     then match videoUrl job with
          | Some url => if Js.truthy url then Some url else None
          | None => None
          end
     else None)
    (prompt job)
    (if JobStatus_eqb (status job) COMPLETED then Some (handleDownload job)
     else None)
    (if JobStatus_eqb (status job) FAILED
     then Some (match error job with
                | Some m => if Js.truthy m then m
                            else Js.lit "Unknown error occurred"
                | None => Js.lit "Unknown error occurred"
                end)
     else None)
    (if JobStatus_eqb (status job) FAILED then Some (id job) else None)
    (match completedAt job with
     | Some t => if Z.eqb t 0 then None else Some (t - createdAt job)%Z
     | None => None
     end).

(** The queue column, lines 259-276: newest job first. *)
Definition renderQueue (st : State) : list CardView :=
  map JobCard (rev (jobs st)).

(** Two versions of a job: the fields no write of the component changes. *)
Definition sameIdentity (j j' : VideoJob) : Prop :=
  id j' = id j /\ prompt j' = prompt j /\ createdAt j' = createdAt j /\
  fileName j' = fileName j.

(** The texts a job carries: a prompt that is not empty and is its own
    trim, an error message that is not empty, and an error on every FAILED
    job. *)
Definition jobTextOk (j : VideoJob) : Prop :=
  prompt j <> [] /\ Js.trim (prompt j) = prompt j /\
  (forall m, error j = Some m -> m <> []) /\
  (status j = FAILED -> error j <> None).

(** The same of the store, of the snapshots held by the calls in flight,
    and of the prompts given to the client. *)
Definition textOk (st : State) : Prop :=
  Forall jobTextOk (jobs st) /\
  (forall fr, In fr (awaiting st) -> Forall jobTextOk (cl_jobs (fr_env fr))) /\
  (forall p, In p (calls st) -> p <> [] /\ Js.trim p = p).

(** The events that add jobs to the store or take jobs out of it. *)
Definition changesMembership (ev : Event) : bool :=
  match ev with
  | AddJobs | DeleteJob _ | ClearAll _ => true
  | _ => false
  end.

(** ** Invariants *)

(** Every id of the store was drawn from [crypto.randomUUID()]. *)
Definition idsKnown (st : State) : Prop :=
  forall x, In x (map id (jobs st)) ->
            exists n, n < uuidCalls st /\ x = randomUUID n.

(** Single flight: ids are unique; with no call in flight the busy flag is
    clear and no job is PROCESSING; otherwise one call is in flight, the
    flag is set, and only the job of that call can be PROCESSING. *)
Definition singleFlight (st : State) : Prop :=
  NoDup (map id (jobs st)) /\
  idsKnown st /\
  match awaiting st with
  | [] => processingRef st = false /\
          forall j, In j (jobs st) -> status j <> PROCESSING
  | [fr] => processingRef st = true /\ wfFrame fr /\
            forall j, In j (jobs st) -> status j = PROCESSING ->
                      id j = id (fr_job fr)
  | _ :: _ :: _ => False
  end.

(** What the fields of a job say about its status; [c] is the number of
    clock readings so far. *)
Definition jobFieldsOk (c : nat) (j : VideoJob) : Prop :=
  (exists k, k < c /\ createdAt j = dateNow k) /\
  (forall t, completedAt j = Some t -> (createdAt j <= t)%Z) /\
  (status j = COMPLETED ->
   videoUrl j <> None /\ videoBlob j <> None /\ completedAt j <> None) /\
  (status j = FAILED -> error j <> None).

Definition storeFieldsOk (st : State) : Prop :=
  Forall (jobFieldsOk (clockCalls st)) (jobs st).

(* ------------------------------------------------------------------ *)
(** * Properties *)

(** ** Strings and arrays *)

Lemma Js_eqb_eq (a b : Js.str) : Js.eqb a b = true <-> a = b.
Proof.
  revert b; induction a as [|x a IH]; intros [|y b]; simpl; split;
    try congruence; try reflexivity.
  - intros H. apply andb_true_iff in H as [Hx Hab].
    apply N.eqb_eq in Hx. apply IH in Hab. congruence.
  - intros H. injection H as -> ->.
    apply andb_true_iff. split; [apply N.eqb_refl | now apply IH].
Qed.

Lemma Js_eqb_refl (a : Js.str) : Js.eqb a a = true.
Proof. now apply Js_eqb_eq. Qed.

Lemma Js_eqb_neq (a b : Js.str) : Js.eqb a b = false <-> a <> b.
Proof.
  split.
  - intros H E. apply Js_eqb_eq in E. congruence.
  - intros H. destruct (Js.eqb a b) eqn:E; [|reflexivity].
    apply Js_eqb_eq in E. contradiction.
Qed.

Lemma findIndex_Some {A} (p : A -> bool) (l : list A) (i : nat) :
  Js.findIndex p l = Some i ->
  exists x, nth_error l i = Some x /\ p x = true /\
            forall k y, k < i -> nth_error l k = Some y -> p y = false.
Proof.
  revert i; induction l as [|a l IH]; simpl; intros i H; [discriminate|].
  destruct (p a) eqn:Hp.
  - injection H as <-. exists a. repeat split; auto. intros k y Hk; lia.
  - destruct (Js.findIndex p l) as [i'|] eqn:Hf; [|discriminate].
    injection H as <-. destruct (IH i' eq_refl) as (x & Hx & Hpx & Hlt).
    exists x. repeat split; auto.
    intros [|k] y Hk Hy; simpl in Hy.
    + congruence.
    + apply (Hlt k); [lia | assumption].
Qed.

Lemma findIndex_None {A} (p : A -> bool) (l : list A) :
  Js.findIndex p l = None <-> existsb p l = false.
Proof.
  induction l as [|a l IH]; simpl; [tauto|].
  destruct (p a); simpl.
  - split; discriminate.
  - destruct (Js.findIndex p l); split; intros H; try discriminate.
    + apply IH in H. discriminate.
    + now apply IH.
    + reflexivity.
Qed.

Lemma trimStart_nil_iff (s : Js.str) :
  Js.trimStart s = [] <-> forallb Js.isWhiteSpace s = true.
Proof.
  induction s as [|c s IH]; simpl; [tauto|].
  destruct (Js.isWhiteSpace c); simpl; [exact IH|].
  split; discriminate.
Qed.

Lemma forallb_rev {A} (p : A -> bool) (l : list A) :
  forallb p (rev l) = forallb p l.
Proof.
  induction l as [|a l IH]; simpl; [reflexivity|].
  rewrite forallb_app, IH. simpl. rewrite andb_true_r. apply andb_comm.
Qed.

Lemma trimStart_head (s : Js.str) :
  match Js.trimStart s with
  | [] => True
  | c :: _ => Js.isWhiteSpace c = false
  end.
Proof.
  induction s as [|c s IH]; simpl; [exact I|].
  destruct (Js.isWhiteSpace c) eqn:E; [exact IH | exact E].
Qed.

(** A line is dropped by [trim] exactly when all its code units are
    white space. *)
Lemma trim_nil_iff (s : Js.str) :
  Js.trim s = [] <-> forallb Js.isWhiteSpace s = true.
Proof.
  unfold Js.trim, Js.trimEnd. split.
  - intros H.
    assert (Hr : Js.trimStart (rev (Js.trimStart s)) = []).
    { destruct (Js.trimStart (rev (Js.trimStart s))); [reflexivity|].
      simpl in H. now apply app_eq_nil in H as [_ H]. }
    apply trimStart_nil_iff in Hr. rewrite forallb_rev in Hr.
    pose proof (trimStart_head s) as Hh.
    destruct (Js.trimStart s) as [|c t] eqn:Et.
    + now apply trimStart_nil_iff.
    + simpl in Hr. rewrite Hh in Hr. discriminate.
  - intros H. apply trimStart_nil_iff in H. now rewrite H.
Qed.

(** What [trim] returns neither starts nor ends with white space. *)
Lemma trim_ends (s : Js.str) :
  match Js.trim s with
  | [] => True
  | c :: _ => Js.isWhiteSpace c = false
  end /\
  match rev (Js.trim s) with
  | [] => True
  | c :: _ => Js.isWhiteSpace c = false
  end.
Proof.
  unfold Js.trim, Js.trimEnd. rewrite rev_involutive. split.
  - pose proof (trimStart_head s) as Hs.
    set (t := Js.trimStart s) in *.
    assert (G : forall u, (match u with [] => True
                                   | c :: _ => Js.isWhiteSpace c = false end) ->
                match rev (Js.trimStart (rev u)) with
                | [] => True | c :: _ => Js.isWhiteSpace c = false end).
    { intros u. induction u as [|a u IHu] using rev_ind; [intros; exact I|].
      rewrite rev_app_distr. simpl.
      destruct (Js.isWhiteSpace a) eqn:Ea.
      - intros Hu. apply IHu. destruct u; [exact I | exact Hu].
      - simpl. rewrite rev_involutive. intros Hu. exact Hu. }
    now apply G.
  - apply trimStart_head.
Qed.

Lemma split_blank (s : Js.str) :
  forallb Js.isWhiteSpace s = true ->
  Forall (fun l => forallb Js.isWhiteSpace l = true) (Js.split 10 s).
Proof.
  induction s as [|c s IH]; simpl; intros H.
  - repeat constructor.
  - apply andb_true_iff in H as [Hc Hs]. specialize (IH Hs).
    destruct (N.eqb c 10).
    + constructor; [reflexivity | exact IH].
    + destruct (Js.split 10 s) as [|l ls].
      * repeat constructor. simpl. now rewrite Hc.
      * inversion IH; subst. constructor; [|assumption].
        simpl. now rewrite Hc.
Qed.

Lemma nonblank_test (line : Js.str) :
  (0 <? List.length (Js.trim line)) = negb (forallb Js.isWhiteSpace line).
Proof.
  destruct (forallb Js.isWhiteSpace line) eqn:E.
  - apply trim_nil_iff in E. now rewrite E.
  - destruct (Js.trim line) eqn:Et; [|reflexivity].
    apply trim_nil_iff in Et. congruence.
Qed.

(** ** Updaters of the store *)

Lemma patchById_ids target f l :
  (forall j, id (f j) = id j) ->
  map id (patchById target f l) = map id l.
Proof.
  intros Hf. unfold patchById. rewrite map_map. apply map_ext.
  intros j. destruct (Js.eqb (id j) target); auto.
Qed.

Lemma patchById_absent target f l :
  ~ In target (map id l) -> patchById target f l = l.
Proof.
  unfold patchById. induction l as [|j l IH]; simpl; intros H; [reflexivity|].
  destruct (Js.eqb (id j) target) eqn:E.
  - apply Js_eqb_eq in E. exfalso. apply H. now left.
  - f_equal. apply IH. intros Hin. apply H. now right.
Qed.

Lemma patchById_length target f l :
  List.length (patchById target f l) = List.length l.
Proof. unfold patchById. apply length_map. Qed.

Lemma patchById_nth target f l i :
  nth_error (patchById target f l) i =
  option_map (fun j => if Js.eqb (id j) target then f j else j) (nth_error l i).
Proof. unfold patchById. apply nth_error_map. Qed.

(** ** Batch add *)

Lemma newJobsFrom_prompts u c lines :
  map prompt (newJobsFrom u c lines) = map Js.trim lines.
Proof.
  revert u c; induction lines as [|l ls IH]; intros u c; simpl;
    [reflexivity | now rewrite IH].
Qed.

Lemma newJobsFrom_fresh u c lines :
  Forall (fun j => status j = PENDING /\ videoUrl j = None /\
                   videoBlob j = None /\ completedAt j = None /\
                   error j = None)
         (newJobsFrom u c lines).
Proof.
  revert u c; induction lines as [|l ls IH]; intros u c; simpl;
    constructor; simpl; auto.
Qed.

Lemma newJobsFrom_length u c lines :
  List.length (newJobsFrom u c lines) = List.length lines.
Proof.
  revert u c; induction lines as [|l ls IH]; intros u c; simpl;
    [reflexivity | now rewrite IH].
Qed.

(** C6. [handleAddJobs] appends to the store, after the jobs already
    there and in line order, one fresh PENDING job for each line of the
    input (split at line feeds) that is not made of white space only; its
    prompt is the trimmed line. The text of the scenario gives exactly the
    two jobs "cat on a skateboard" and "in the rain". *)
Theorem handleAddJobs_one_job_per_nonblank_line :
  (forall st,
     let lines := filter (fun l => negb (forallb Js.isWhiteSpace l))
                         (Js.split 10 (inputPrompt st)) in
     exists newJobs,
       jobs (handleAddJobs st) = jobs st ++ newJobs /\
       List.length newJobs = List.length lines /\
       map prompt newJobs = map Js.trim lines /\
       Forall (fun j => status j = PENDING /\ videoUrl j = None /\
                        videoBlob j = None /\ completedAt j = None /\
                        error j = None) newJobs /\
       Forall (fun j => prompt j <> []) newJobs)
  /\
  (forall st,
     jobs (handleAddJobs (setInputPrompt batchText st)) =
     jobs st ++
     [ mkVideoJob (randomUUID (uuidCalls st)) (Js.lit "cat on a skateboard")
                  PENDING None None None (dateNow (clockCalls st)) None None;
       mkVideoJob (randomUUID (S (uuidCalls st))) (Js.lit "in the rain")
                  PENDING None None None (dateNow (S (clockCalls st)))
                  None None ]).
Proof.
  split.
  - intros st lines. unfold handleAddJobs.
    destruct (Js.truthy (Js.trim (inputPrompt st))) eqn:Ht; simpl.
    + rewrite (filter_ext _ _ nonblank_test). fold lines.
      exists (newJobsFrom (uuidCalls st) (clockCalls st) lines).
      repeat split.
      * apply newJobsFrom_length.
      * apply newJobsFrom_prompts.
      * apply newJobsFrom_fresh.
      * assert (Hl : Forall (fun l => Js.trim l <> []) lines).
        { apply Forall_forall. intros l Hl. apply filter_In in Hl as [_ Hl].
          intros E. apply trim_nil_iff in E. rewrite E in Hl. discriminate. }
        clearbody lines. generalize (uuidCalls st) (clockCalls st).
        induction Hl as [|l ls Hl _ IH]; intros u c; simpl; constructor; auto.
    + exists []. rewrite app_nil_r.
      assert (Hb : forallb Js.isWhiteSpace (inputPrompt st) = true).
      { apply trim_nil_iff. destruct (Js.trim (inputPrompt st));
          [reflexivity | discriminate]. }
      assert (Hnil : lines = []).
      { subst lines. apply split_blank in Hb.
        induction Hb as [|l ls Hl _ IH]; simpl; [reflexivity|].
        rewrite Hl. exact IH. }
      rewrite Hnil. repeat split; constructor.
  - intros st. destruct st. reflexivity.
Qed.

(** ** Retry *)

(** C10. [retryJob] looks only at the id: whatever the status of the job
    at a position, the job there afterwards has the same id, prompt,
    createdAt, videoUrl, videoBlob, fileName and completedAt; when its id
    is the target its status is PENDING and its error is cleared, and
    otherwise it is the same job. Nothing else of the state changes. *)
Theorem retryJob_frame target st i j :
  nth_error (jobs st) i = Some j ->
  exists j',
    nth_error (jobs (retryJob target st)) i = Some j' /\
    id j' = id j /\ prompt j' = prompt j /\ createdAt j' = createdAt j /\
    videoUrl j' = videoUrl j /\ videoBlob j' = videoBlob j /\
    fileName j' = fileName j /\ completedAt j' = completedAt j /\
    (id j = target -> status j' = PENDING /\ error j' = None) /\
    (id j <> target -> j' = j) /\
    List.length (jobs (retryJob target st)) = List.length (jobs st) /\
    retryJob target st = setJobs (fun _ => jobs (retryJob target st)) st.
Proof.
  intros Hj. unfold retryJob; simpl. rewrite patchById_nth, Hj; simpl.
  destruct (Js.eqb (id j) target) eqn:E.
  - apply Js_eqb_eq in E. exists (withPending j).
    repeat split; auto; try apply patchById_length; contradiction.
  - apply Js_eqb_neq in E. exists j.
    repeat split; auto; try apply patchById_length; contradiction.
Qed.

Lemma findIndex_first_pending (l : list VideoJob) i j :
  nth_error l i = Some j -> isPending j = true ->
  (forall k y, k < i -> nth_error l k = Some y -> isPending y = false) ->
  Js.findIndex isPending l = Some i.
Proof.
  revert i; induction l as [|a l IH]; intros [|i] Hj Hp Hlt; simpl in *;
    try discriminate.
  - injection Hj as ->. now rewrite Hp.
  - rewrite (Hlt 0 a) by (auto; lia).
    rewrite (IH i Hj Hp); [reflexivity|].
    intros k y Hk Hy. apply (Hlt (S k)); [lia | exact Hy].
Qed.

(** ** Writes for an id that is not in the store *)

Lemma completeById_absent target result c l :
  ~ In target (map id l) -> completeById target result c l = (l, c).
Proof.
  revert c; induction l as [|j l IH]; simpl; intros c H; [reflexivity|].
  destruct (Js.eqb (id j) target) eqn:E.
  - apply Js_eqb_eq in E. exfalso. apply H. now left.
  - rewrite IH; [reflexivity|]. intros Hin. apply H. now right.
Qed.

Lemma deleteJob_absent target st :
  ~ In target (map id (jobs (deleteJob target st))).
Proof.
  unfold deleteJob; simpl. intros H. apply in_map_iff in H as (j & Hid & Hj).
  apply filter_In in Hj as [_ Hj]. subst target.
  now rewrite Js_eqb_refl in Hj.
Qed.

Lemma outcomeWrite_absent outcome job st :
  ~ In (id job) (map id (jobs st)) ->
  jobs (outcomeWrite outcome job st) = jobs st.
Proof.
  intros H. destruct outcome as [e|result]; simpl.
  - unfold catchBlock.
    destruct (mentionsEntityNotFound e); simpl; now apply patchById_absent.
  - unfold tryCompleted. now rewrite completeById_absent.
Qed.

(** C8. After [deleteJob] of a job's id the store has no job with that id
    and is the old store without it, in the old order; the write that
    follows the settling of that job's client call, success or failure,
    then leaves the store as it is. More generally every write by id (the
    outcome writes, and any patch) is the identity on a store that does not
    hold the id. The functions are total: nothing is raised. *)
Theorem write_for_deleted_job_is_noop :
  (forall st job outcome,
     let st1 := deleteJob (id job) st in
     let st2 := outcomeWrite outcome job st1 in
     jobs st2 = jobs st1 /\
     ~ In (id job) (map id (jobs st2)) /\
     jobs st2 = filter (fun j => negb (Js.eqb (id j) (id job))) (jobs st) /\
     (forall j, In j (jobs st) -> id j <> id job -> In j (jobs st2)))
  /\
  (forall st job outcome,
     ~ In (id job) (map id (jobs st)) ->
     jobs (outcomeWrite outcome job st) = jobs st /\
     forall f, patchById (id job) f (jobs st) = jobs st).
Proof.
  split.
  - intros st job outcome st1 st2.
    assert (E : jobs st2 = jobs st1).
    { apply outcomeWrite_absent, deleteJob_absent. }
    split; [exact E|]. rewrite E. split; [apply deleteJob_absent|].
    split; [reflexivity|].
    intros j Hj Hne. unfold st1, deleteJob; simpl. apply filter_In.
    split; [exact Hj|]. apply Js_eqb_neq in Hne. now rewrite Hne.
  - intros st job outcome H. split.
    + now apply outcomeWrite_absent.
    + intros f. now apply patchById_absent.
Qed.

(** ** The guard and the idle trigger *)

Lemma processQueue_guard fuel env st :
  processingRef st = true -> processQueue (S fuel) env st = Some st.
Proof. intros H. simpl. now rewrite H. Qed.

Lemma runAll_repeat_fixed fuel ev st n :
  run fuel ev st = Some st -> runAll fuel (repeat ev n) st = Some st.
Proof.
  intros H. induction n as [|n IH]; simpl; [reflexivity|]. now rewrite H.
Qed.

(** C9. With no PENDING job in the store, or with the busy flag set (a
    drain is running), the queue effect returns the state it was given, any
    number of times; [processQueue] called on the current render changes no
    job, starts no client call and leaves the calls in flight as they are. *)
Theorem trigger_is_idempotent st fuel n :
  existsb isPending (jobs st) = false \/ processingRef st = true ->
  queueEffect (S fuel) st = Some st /\
  runAll (S fuel) (repeat QueueEffect n) st = Some st /\
  exists st',
    processQueue (S fuel) (mkClosure (jobs st) (apiKeyReady st)) st = Some st' /\
    jobs st' = jobs st /\ calls st' = calls st /\ awaiting st' = awaiting st /\
    processingRef st' = processingRef st /\ apiKeyReady st' = apiKeyReady st.
Proof.
  intros H.
  assert (Hq : queueEffect (S fuel) st = Some st).
  { unfold queueEffect. destruct (existsb isPending (jobs st)) eqn:E;
      [|reflexivity].
    destruct H as [H|H]; [discriminate|]. now apply processQueue_guard. }
  split; [exact Hq|]. split; [now apply runAll_repeat_fixed|].
  destruct (processingRef st) eqn:Hr.
  - exists st. rewrite processQueue_guard by assumption. repeat split; auto.
  - destruct H as [H|H]; [|discriminate].
    exists (setIsProcessing false st). simpl. rewrite Hr.
    apply findIndex_None in H. rewrite H. repeat split; auto.
Qed.

(** ** One pass of [processQueue] *)

Lemma processQueue_not_ready_pass fuel env st i job :
  processingRef st = false ->
  Js.findIndex isPending (cl_jobs env) = Some i ->
  nth_error (cl_jobs env) i = Some job ->
  cl_apiKeyReady env = false ->
  processQueue (S fuel) env st = processQueue fuel env (afterNotReady job st).
Proof.
  intros Hr Hi Hj Hk. simpl. now rewrite Hr, Hi, Hj, Hk.
Qed.

(** Each pass on a closure that is not ready fails the job it selected with
    the precondition message, without a client call ... *)
Lemma afterNotReady_fails job st i j :
  nth_error (jobs st) i = Some j -> id j = id job ->
  exists j', nth_error (jobs (afterNotReady job st)) i = Some j' /\
             status j' = FAILED /\
             error j' = Some (Js.lit "API Key not connected") /\
             calls (afterNotReady job st) = calls st /\
             awaiting (afterNotReady job st) = awaiting st /\
             processingRef (afterNotReady job st) = false.
Proof.
  intros Hj Hid. unfold afterNotReady, catchBlock.
  change (mentionsEntityNotFound (Error "API Key not connected")) with false.
  cbn [jobs setJobs setProcessingRef setIsProcessing calls awaiting processingRef].
  rewrite !patchById_nth, Hj. cbn [option_map].
  rewrite Hid, Js_eqb_refl. cbn [id withProcessing]. rewrite Hid, Js_eqb_refl.
  eexists. split; [reflexivity|]. repeat split.
Qed.

(** ... and hands over to the same closure, which selects the same job
    again: no depth of recursion is enough on this path. What ends it is
    the stack of the engine, see [processQueueOnStack]. *)
Lemma processQueue_not_ready_diverges fuel env st i :
  processingRef st = false ->
  Js.findIndex isPending (cl_jobs env) = Some i ->
  cl_apiKeyReady env = false ->
  processQueue fuel env st = None.
Proof.
  intros Hr Hi Hk. revert st Hr.
  destruct (findIndex_Some _ _ Hi) as (job & Hj & _).
  induction fuel as [|fuel IH]; intros st Hr; [reflexivity|].
  rewrite (processQueue_not_ready_pass _ _ _ Hr Hi Hj Hk).
  apply IH. reflexivity.
Qed.

Lemma processQueue_ready_pass fuel env st i job :
  processingRef st = false ->
  Js.findIndex isPending (cl_jobs env) = Some i ->
  nth_error (cl_jobs env) i = Some job ->
  cl_apiKeyReady env = true ->
  processQueue (S fuel) env st =
  Some (suspendAt (mkFrame env job)
          (setJobs (patchById (id job) withProcessing)
             (setIsProcessing true (setProcessingRef true st)))).
Proof.
  intros Hr Hi Hj Hk. simpl. now rewrite Hr, Hi, Hj, Hk.
Qed.

(** After the outcome write, the [finally] block re-enters [processQueue]
    from the closure of the frame: it selects the job of the frame again
    and calls the client with the same prompt. *)
Lemma resume_reselects fuel outcome fr st :
  wfFrame fr ->
  resume (S fuel) outcome fr st =
  Some (suspendAt fr
          (setJobs (patchById (id (fr_job fr)) withProcessing)
             (setIsProcessing true
                (setProcessingRef true
                   (setProcessingRef false
                      (outcomeWrite outcome (fr_job fr) st)))))).
Proof.
  intros (Hready & i & Hi & Hj). unfold resume, finallyBlock.
  rewrite (@processQueue_ready_pass fuel _
             (setProcessingRef false (outcomeWrite outcome (fr_job fr) st))
             _ _ eq_refl Hi Hj Hready).
  now destruct fr.
Qed.

(** ** The client never rejects from its [try] block with the marker *)

Lemma veoCatch_hides_marker e : mentionsEntityNotFound (veoCatch e) = false.
Proof.
  unfold veoCatch. destruct (mentionsEntityNotFound e) eqn:E;
    [reflexivity | exact E].
Qed.

Lemma generateVideoWithVeo_rejection fuel sdk prompt e :
  newGoogleGenAI sdk = None ->
  generateVideoWithVeo fuel sdk prompt = Some (inl e) ->
  mentionsEntityNotFound e = false.
Proof.
  unfold generateVideoWithVeo. intros -> H.
  destruct (veoTry fuel sdk prompt) as [[e'|r]|]; try discriminate.
  injection H as <-. apply veoCatch_hides_marker.
Qed.

(** The handler of [processQueue], for an error that does carry the marker. *)
Lemma catchBlock_marker job e st :
  mentionsEntityNotFound e = true ->
  apiKeyReady (catchBlock job e st) = false /\
  jobs (catchBlock job e st) =
    patchById (id job) (withFailed (messageOrDefault e)) (jobs st) /\
  message e = Some (messageOrDefault e).
Proof.
  intros H. unfold catchBlock. rewrite H. repeat split.
  unfold mentionsEntityNotFound in H. unfold messageOrDefault.
  destruct (message e) as [m|]; [|discriminate].
  destruct (Js.truthy m); [reflexivity | discriminate].
Qed.

Lemma catchBlock_no_marker job e st :
  mentionsEntityNotFound e = false ->
  apiKeyReady (catchBlock job e st) = apiKeyReady st.
Proof. intros H. unfold catchBlock. now rewrite H. Qed.

(** ** Single flight *)

Lemma status_eqb_eq a b : JobStatus_eqb a b = true <-> a = b.
Proof. destruct a, b; simpl; split; congruence. Qed.

Lemma patchById_In target f l j' :
  In j' (patchById target f l) ->
  exists j, In j l /\
            ((id j = target /\ j' = f j) \/ (id j <> target /\ j' = j)).
Proof.
  unfold patchById. intros H. apply in_map_iff in H as (j & E & Hj).
  exists j. split; [exact Hj|].
  destruct (Js.eqb (id j) target) eqn:Eb.
  - left. apply Js_eqb_eq in Eb. auto.
  - right. apply Js_eqb_neq in Eb. auto.
Qed.

Lemma completeById_ids target result c l :
  map id (fst (completeById target result c l)) = map id l.
Proof.
  revert c; induction l as [|j l IH]; intros c; simpl; [reflexivity|].
  destruct (Js.eqb (id j) target).
  - specialize (IH (S c)).
    destruct (completeById target result (S c) l); simpl in *. now f_equal.
  - specialize (IH c).
    destruct (completeById target result c l); simpl in *. now f_equal.
Qed.

Lemma completeById_clock target result c l :
  c <= snd (completeById target result c l).
Proof.
  revert c; induction l as [|j l IH]; intros c; simpl; [lia|].
  destruct (Js.eqb (id j) target).
  - specialize (IH (S c)).
    destruct (completeById target result (S c) l); simpl in *. lia.
  - specialize (IH c).
    destruct (completeById target result c l); simpl in *. lia.
Qed.

Lemma completeById_In target result c l j' :
  In j' (fst (completeById target result c l)) ->
  exists j, In j l /\
    ((id j = target /\
      exists k, c <= k < snd (completeById target result c l) /\
                j' = withCompleted result (dateNow k) j) \/
     (id j <> target /\ j' = j)).
Proof.
  revert c; induction l as [|j l IH]; intros c; simpl; [tauto|].
  destruct (Js.eqb (id j) target) eqn:Eb.
  - specialize (IH (S c)).
    pose proof (completeById_clock target result (S c) l) as Hc.
    destruct (completeById target result (S c) l) as [rest c']; simpl in *.
    intros [<-|H].
    + exists j. split; [now left|]. left. apply Js_eqb_eq in Eb.
      split; [exact Eb|]. exists c. split; [lia | reflexivity].
    + destruct (IH H) as (j0 & Hj0 & [(Hid & k & Hk & ->)|(Hid & ->)]).
      * exists j0. split; [now right|]. left. split; [exact Hid|].
        exists k. split; [lia | reflexivity].
      * exists j0. split; [now right|]. right. auto.
  - specialize (IH c).
    destruct (completeById target result c l) as [rest c']; simpl in *.
    intros [<-|H].
    + exists j. split; [now left|]. right. apply Js_eqb_neq in Eb. auto.
    + destruct (IH H) as (j0 & Hj0 & Hcase).
      exists j0. split; [now right | exact Hcase].
Qed.

Lemma outcomeWrite_frame outcome job st :
  awaiting (outcomeWrite outcome job st) = awaiting st /\
  processingRef (outcomeWrite outcome job st) = processingRef st /\
  uuidCalls (outcomeWrite outcome job st) = uuidCalls st /\
  calls (outcomeWrite outcome job st) = calls st /\
  clockCalls st <= clockCalls (outcomeWrite outcome job st) /\
  map id (jobs (outcomeWrite outcome job st)) = map id (jobs st).
Proof.
  destruct outcome as [e|result]; simpl.
  - unfold catchBlock. destruct (mentionsEntityNotFound e); simpl;
      repeat split; auto; apply patchById_ids; reflexivity.
  - unfold tryCompleted.
    pose proof (completeById_ids (id job) result (clockCalls st) (jobs st)) as Hi.
    pose proof (completeById_clock (id job) result (clockCalls st) (jobs st)) as Hc.
    destruct (completeById (id job) result (clockCalls st) (jobs st));
      simpl in *. repeat split; auto.
Qed.

Lemma outcomeWrite_In outcome job st j' :
  In j' (jobs (outcomeWrite outcome job st)) ->
  exists j, In j (jobs st) /\
    ((id j = id job /\
      ((exists result k, outcome = inr result /\
          clockCalls st <= k < clockCalls (outcomeWrite outcome job st) /\
          j' = withCompleted result (dateNow k) j) \/
       (exists e, outcome = inl e /\ j' = withFailed (messageOrDefault e) j)))
     \/ (id j <> id job /\ j' = j)).
Proof.
  destruct outcome as [e|result]; simpl.
  - unfold catchBlock. intros H.
    assert (H' : In j' (patchById (id job) (withFailed (messageOrDefault e))
                                  (jobs st))).
    { destruct (mentionsEntityNotFound e); exact H. }
    apply patchById_In in H' as (j & Hj & [(Hid & ->)|(Hid & ->)]).
    + exists j. split; [exact Hj|]. left. split; [exact Hid|]. right. eauto.
    + exists j. split; [exact Hj|]. right. auto.
  - unfold tryCompleted.
    pose proof (@completeById_In (id job) result (clockCalls st) (jobs st) j')
      as HIn.
    destruct (completeById (id job) result (clockCalls st) (jobs st))
      as [jobs' c']; simpl in *.
    intros H. destruct (HIn H) as (j & Hj & [(Hid & k & Hk & ->)|(Hid & ->)]).
    + exists j. split; [exact Hj|]. left. split; [exact Hid|]. left. eauto.
    + exists j. split; [exact Hj|]. right. auto.
Qed.

Lemma countProcessing_none l :
  (forall j, In j l -> status j <> PROCESSING) -> countProcessing l = 0.
Proof.
  unfold countProcessing. induction l as [|j l IH]; simpl; intros H;
    [reflexivity|].
  destruct (JobStatus_eqb (status j) PROCESSING) eqn:E.
  - apply status_eqb_eq in E. exfalso. apply (H j); auto.
  - apply IH. intros j0 Hj0. apply H. now right.
Qed.

Lemma countProcessing_unique l x :
  NoDup (map id l) ->
  (forall j, In j l -> status j = PROCESSING -> id j = x) ->
  countProcessing l <= 1.
Proof.
  induction l as [|j l IH]; simpl; intros Hnd H; [unfold countProcessing; simpl; lia|].
  inversion Hnd as [|? ? Hnotin Hnd']; subst.
  unfold countProcessing in *. simpl.
  destruct (JobStatus_eqb (status j) PROCESSING) eqn:E.
  - apply status_eqb_eq in E.
    assert (Hx : id j = x) by (apply H; auto).
    assert (Hz : countProcessing l = 0).
    { apply countProcessing_none. intros j0 Hj0 Hs.
      apply Hnotin. rewrite Hx, <- (H j0); auto. now apply in_map. }
    unfold countProcessing in Hz. simpl. lia.
  - apply IH; auto.
Qed.

Lemma filter_ids_NoDup (keep : VideoJob -> bool) (store : list VideoJob) :
  NoDup (map id store) -> NoDup (map id (filter keep store)).
Proof.
  intros Hnd. induction store as [|j rest IH]; simpl; [constructor|].
  inversion Hnd as [|? ? Hfresh Hrest]; subst.
  destruct (keep j); simpl; [|now apply IH].
  constructor; [|now apply IH].
  intros Hin. apply Hfresh. apply in_map_iff in Hin as (j0 & E & Hj0).
  apply filter_In in Hj0 as [Hj0 _]. rewrite <- E. now apply in_map.
Qed.

Lemma newJobsFrom_ids u c lines x :
  In x (map id (newJobsFrom u c lines)) ->
  exists n, u <= n < u + List.length lines /\ x = randomUUID n.
Proof.
  revert u c; induction lines as [|l ls IH]; intros u c; simpl; [tauto|].
  intros [<-|H].
  - exists u. split; [lia | reflexivity].
  - destruct (IH _ _ H) as (n & Hn & ->). exists n. split; [lia | reflexivity].
Qed.

Lemma newJobsFrom_NoDup u c lines :
  (forall m n, randomUUID m = randomUUID n -> m = n) ->
  NoDup (map id (newJobsFrom u c lines)).
Proof.
  intros Hinj. revert u c; induction lines as [|l ls IH]; intros u c; simpl;
    constructor; [|apply IH].
  intros H. apply newJobsFrom_ids in H as (n & Hn & E).
  apply Hinj in E. lia.
Qed.

(** A store change that keeps the calls in flight and the busy flag, and
    makes no job PROCESSING that was not. *)
Lemma singleFlight_quiet st st' :
  singleFlight st ->
  NoDup (map id (jobs st')) ->
  idsKnown st' ->
  awaiting st' = awaiting st ->
  processingRef st' = processingRef st ->
  (forall j', In j' (jobs st') -> status j' = PROCESSING ->
              exists j, In j (jobs st) /\ status j = PROCESSING /\ id j = id j') ->
  singleFlight st'.
Proof.
  intros (Hnd & Hk & Hfl) Hnd' Hk' Ha Hr Hp.
  split; [exact Hnd'|]. split; [exact Hk'|]. rewrite Ha, Hr.
  destruct (awaiting st) as [|fr [|fr2 rest]]; [| |exact Hfl].
  - destruct Hfl as [Href Hno]. split; [exact Href|].
    intros j' Hj' Hs. destruct (Hp j' Hj' Hs) as (j & Hj & Hsj & _).
    now apply (Hno j).
  - destruct Hfl as (Href & Hwf & Hall).
    split; [exact Href|]. split; [exact Hwf|].
    intros j' Hj' Hs. destruct (Hp j' Hj' Hs) as (j & Hj & Hsj & <-).
    now apply Hall.
Qed.

Lemma processQueue_singleFlight fuel env st st' :
  singleFlight st ->
  processQueue fuel env st = Some st' ->
  singleFlight st'.
Proof.
  intros Hsf Hrun. destruct fuel as [|fuel]; [discriminate|].
  destruct (processingRef st) eqn:Href.
  - rewrite processQueue_guard in Hrun by assumption. congruence.
  - destruct Hsf as (Hnd & Hk & Hfl).
    destruct (awaiting st) as [|fr [|fr2 rest]] eqn:Haw;
      [|destruct Hfl; congruence|contradiction].
    destruct Hfl as [_ Hno].
    destruct (Js.findIndex isPending (cl_jobs env)) as [i|] eqn:Hi.
    + destruct (findIndex_Some _ _ Hi) as (job & Hj & _).
      destruct (cl_apiKeyReady env) eqn:Hready.
      * rewrite (processQueue_ready_pass _ _ _ Href Hi Hj Hready) in Hrun.
        injection Hrun as <-. split; [|split]; simpl.
        -- rewrite patchById_ids; auto.
        -- intros x. simpl. rewrite patchById_ids; auto.
        -- rewrite Haw. simpl. split; [reflexivity|]. split.
           ++ split; [exact Hready|]. exists i. auto.
           ++ intros j' Hj' Hs.
              apply patchById_In in Hj' as (j & Hin & [(Hid & ->)|(Hid & ->)]).
              ** exact Hid.
              ** exfalso. now apply (Hno j).
      * rewrite (processQueue_not_ready_diverges (S fuel) _ _ Href Hi Hready)
          in Hrun.
        discriminate.
    + simpl in Hrun. rewrite Href, Hi in Hrun. injection Hrun as <-.
      split; [|split]; simpl; auto. rewrite Haw. auto.
Qed.

Lemma handleAddJobs_singleFlight st :
  (forall m n, randomUUID m = randomUUID n -> m = n) ->
  singleFlight st -> singleFlight (handleAddJobs st).
Proof.
  intros Hinj Hsf. unfold handleAddJobs.
  destruct (Js.truthy (Js.trim (inputPrompt st))); simpl; [|exact Hsf].
  set (lines := filter _ _).
  pose proof Hsf as (Hnd & Hk & _).
  apply (singleFlight_quiet Hsf); simpl; auto.
  - rewrite map_app. apply NoDup_app; auto.
    + now apply newJobsFrom_NoDup.
    + intros x Hold Hnew. apply Hk in Hold as (n & Hn & ->).
      apply newJobsFrom_ids in Hnew as (n' & Hn' & E).
      apply Hinj in E. lia.
  - intros x. simpl. rewrite map_app, in_app_iff. intros [Hold|Hnew].
    + apply Hk in Hold as (n & Hn & ->). exists n. split; [lia|reflexivity].
    + apply newJobsFrom_ids in Hnew as (n & Hn & ->).
      exists n. split; [lia|reflexivity].
  - intros j' Hj' Hs. apply in_app_iff in Hj' as [Hold|Hnew].
    + exists j'. auto.
    + pose proof (newJobsFrom_fresh (uuidCalls st) (clockCalls st) lines) as Hf.
      rewrite Forall_forall in Hf. destruct (Hf _ Hnew) as [Hp _]. congruence.
Qed.

Lemma retryJob_singleFlight target st :
  singleFlight st -> singleFlight (retryJob target st).
Proof.
  intros Hsf. pose proof Hsf as (Hnd & Hk & _).
  apply (singleFlight_quiet Hsf); simpl; auto.
  - rewrite patchById_ids; auto.
  - intros x. simpl. rewrite patchById_ids; auto.
  - intros j' Hj' Hs.
    apply patchById_In in Hj' as (j & Hin & [(Hid & ->)|(Hid & ->)]).
    + discriminate.
    + exists j. auto.
Qed.

Lemma deleteJob_singleFlight target st :
  singleFlight st -> singleFlight (deleteJob target st).
Proof.
  intros Hsf. pose proof Hsf as (Hnd & Hk & _).
  apply (singleFlight_quiet Hsf); simpl; auto.
  - now apply filter_ids_NoDup.
  - intros x Hx. simpl in Hx. apply Hk.
    apply in_map_iff in Hx as (j & E & Hj). apply filter_In in Hj as [Hj _].
    rewrite <- E. now apply in_map.
  - intros j' Hj' Hs. apply filter_In in Hj' as [Hj' _]. exists j'. auto.
Qed.

Lemma clearAll_singleFlight confirmed st :
  singleFlight st -> singleFlight (clearAll confirmed st).
Proof.
  intros Hsf. destruct confirmed; [|exact Hsf].
  apply (singleFlight_quiet Hsf); simpl; auto.
  - constructor.
  - intros x [].
  - intros j' [].
Qed.

(** The store between the outcome write of the call in flight and the
    [finally] block. *)
Lemma settling_idle outcome fr st :
  singleFlight st ->
  awaiting st = [fr] ->
  singleFlight
    (setProcessingRef false (outcomeWrite outcome (fr_job fr) (dropFrame 0 st)))
  /\ (forall j, In j (jobs (outcomeWrite outcome (fr_job fr) (dropFrame 0 st))) ->
                status j <> PROCESSING)
  /\ awaiting (outcomeWrite outcome (fr_job fr) (dropFrame 0 st)) = [].
Proof.
  intros (Hnd & Hk & Hfl) Haw. rewrite Haw in Hfl.
  destruct Hfl as (Href & Hwf & Hall).
  set (st0 := dropFrame 0 st).
  destruct (outcomeWrite_frame outcome (fr_job fr) st0)
    as (Ha & Hr & Hu & _ & _ & Hids).
  assert (Ha0 : awaiting (outcomeWrite outcome (fr_job fr) st0) = []).
  { rewrite Ha. unfold st0; simpl. now rewrite Haw. }
  assert (Hno : forall j, In j (jobs (outcomeWrite outcome (fr_job fr) st0)) ->
                          status j <> PROCESSING).
  { intros j' Hj' Hs.
    apply outcomeWrite_In in Hj'
      as (j & Hj & [(Hid & [(r & k & _ & _ & ->)|(e & _ & ->)])|(Hid & ->)]);
      try discriminate.
    apply Hid. now apply Hall. }
  split; [|split; assumption].
  split; [|split]; simpl.
  - now rewrite Hids.
  - intros x. simpl. rewrite Hids, Hu. apply Hk.
  - rewrite Ha0. auto.
Qed.

Lemma run_singleFlight fuel ev st st' :
  (forall m n, randomUUID m = randomUUID n -> m = n) ->
  singleFlight st -> run fuel ev st = Some st' -> singleFlight st'.
Proof.
  intros Hinj Hsf Hrun. destruct ev; simpl in Hrun.
  - injection Hrun as <-. destruct hasKey; [|exact Hsf].
    pose proof Hsf as (Hnd & Hk & _).
    apply (singleFlight_quiet Hsf); simpl; eauto.
  - injection Hrun as <-. destruct selected; [|exact Hsf].
    pose proof Hsf as (Hnd & Hk & _).
    apply (singleFlight_quiet Hsf); simpl; eauto.
  - injection Hrun as <-. pose proof Hsf as (Hnd & Hk & _).
    apply (singleFlight_quiet Hsf); simpl; eauto.
  - injection Hrun as <-. now apply handleAddJobs_singleFlight.
  - injection Hrun as <-. now apply retryJob_singleFlight.
  - injection Hrun as <-. now apply deleteJob_singleFlight.
  - injection Hrun as <-. now apply clearAll_singleFlight.
  - unfold queueEffect in Hrun.
    destruct (existsb isPending (jobs st)).
    + eapply processQueue_singleFlight; eauto.
    + congruence.
  - destruct (nth_error (awaiting st) k) as [fr|] eqn:Hfr; [|congruence].
    destruct (generateVideoWithVeo fuel sdk (prompt (fr_job fr)))
      as [outcome|]; [|discriminate].
    assert (Haw : awaiting st = [fr] /\ k = 0).
    { destruct Hsf as (_ & _ & Hfl).
      destruct (awaiting st) as [|fr0 [|fr1 rest]]; [| |contradiction].
      - destruct k; discriminate.
      - destruct k as [|[|k]]; simpl in Hfr; try discriminate.
        injection Hfr as ->. auto. }
    destruct Haw as [Haw ->].
    destruct (settling_idle outcome Hsf Haw) as (Hidle & _ & _).
    unfold resume, finallyBlock in Hrun.
    eapply processQueue_singleFlight; eauto.
Qed.

Lemma reachable_singleFlight st :
  (forall m n, randomUUID m = randomUUID n -> m = n) ->
  reachable st -> singleFlight st.
Proof.
  intros Hinj Hr. induction Hr as [|st ev fuel st' _ IH Hrun].
  - split; [constructor|]. split; [intros x []|]. simpl. auto.
  - eapply run_singleFlight; eauto.
Qed.

Lemma runAll_reachable fuel evs st st' :
  reachable st -> runAll fuel evs st = Some st' -> reachable st'.
Proof.
  revert st; induction evs as [|ev evs IH]; simpl; intros st Hr H.
  - congruence.
  - destruct (run fuel ev st) as [st1|] eqn:E; [|discriminate].
    apply (IH st1); [|exact H]. eapply reach_run; eauto.
Qed.

(** C1. When [crypto.randomUUID()] never repeats an id, in every state the
    component visits at most one job of the store is PROCESSING and at most
    one client call is in flight; while a call is in flight the busy flag is
    set, and [processQueue], entered from any closure, returns the state
    unchanged: it selects no job and calls no client. *)
Theorem single_flight st :
  (forall m n, randomUUID m = randomUUID n -> m = n) ->
  visited st ->
  countProcessing (jobs st) <= 1 /\
  List.length (awaiting st) <= 1 /\
  (awaiting st <> [] ->
   processingRef st = true /\
   forall fuel env, processQueue (S fuel) env st = Some st).
Proof.
  intros Hinj Hv. destruct Hv as [st Hr | st k fr sdk fuel outcome Hr Hfr Hout].
  - destruct (reachable_singleFlight Hinj Hr) as (Hnd & _ & Hfl).
    destruct (awaiting st) as [|fr [|fr2 rest]]; [| |contradiction].
    + destruct Hfl as [_ Hno]. rewrite (countProcessing_none _ Hno).
      simpl. repeat split; try lia; congruence.
    + destruct Hfl as (Href & _ & Hall).
      split; [eapply countProcessing_unique; eauto|].
      split; [simpl; lia|]. intros _. split; [exact Href|].
      intros fuel env. now apply processQueue_guard.
  - pose proof (reachable_singleFlight Hinj Hr) as Hsf.
    assert (Haw : awaiting st = [fr] /\ k = 0).
    { destruct Hsf as (_ & _ & Hfl).
      destruct (awaiting st) as [|fr0 [|fr1 rest]]; [| |contradiction].
      - destruct k; discriminate.
      - destruct k as [|[|k]]; simpl in Hfr; try discriminate.
        injection Hfr as ->. auto. }
    destruct Haw as [Haw ->].
    destruct (settling_idle outcome Hsf Haw) as (_ & Hno & Ha0).
    rewrite (countProcessing_none _ Hno), Ha0. simpl.
    repeat split; try lia; congruence.
Qed.

(** ** Fields of terminal jobs *)

Section Clock.

Hypothesis dateNow_monotone : forall m n, m <= n -> (dateNow m <= dateNow n)%Z.

Lemma jobFieldsOk_later c c' j :
  c <= c' -> jobFieldsOk c j -> jobFieldsOk c' j.
Proof.
  intros Hc ((k & Hk & E) & H2 & H3 & H4).
  split; [exists k; split; [lia | exact E] | auto].
Qed.

Lemma withProcessing_fieldsOk c j :
  jobFieldsOk c j -> jobFieldsOk c (withProcessing j).
Proof.
  intros (H1 & H2 & H3 & H4). repeat split; simpl; auto; discriminate.
Qed.

Lemma withPending_fieldsOk c j :
  jobFieldsOk c j -> jobFieldsOk c (withPending j).
Proof.
  intros (H1 & H2 & H3 & H4). repeat split; simpl; auto; discriminate.
Qed.

Lemma withFailed_fieldsOk c msg j :
  jobFieldsOk c j -> jobFieldsOk c (withFailed msg j).
Proof.
  intros (H1 & H2 & H3 & H4). repeat split; simpl; auto; discriminate.
Qed.

Lemma withCompleted_fieldsOk c c' k result j :
  c <= k < c' ->
  jobFieldsOk c j -> jobFieldsOk c' (withCompleted result (dateNow k) j).
Proof.
  intros Hk ((k0 & Hk0 & E) & H2 & H3 & H4). split; [|split; [|split]]; simpl.
  - exists k0. split; [lia | exact E].
  - intros t Ht. injection Ht as <-. rewrite E.
    apply dateNow_monotone. lia.
  - intros _. repeat split; discriminate.
  - discriminate.
Qed.

Lemma patchById_fieldsOk c target f l :
  (forall j, jobFieldsOk c j -> jobFieldsOk c (f j)) ->
  Forall (jobFieldsOk c) l -> Forall (jobFieldsOk c) (patchById target f l).
Proof.
  intros Hf H. unfold patchById. apply Forall_map.
  eapply Forall_impl; [|exact H]. intros j Hj. simpl.
  destruct (Js.eqb (id j) target); auto.
Qed.

Lemma newJobsFrom_fieldsOk u c lines :
  Forall (jobFieldsOk (c + List.length lines)) (newJobsFrom u c lines).
Proof.
  revert u c; induction lines as [|l ls IH]; intros u c; simpl; constructor.
  - split; [|split; [|split]]; simpl; try discriminate.
    exists c. split; [lia | reflexivity].
  - replace (c + S (List.length ls)) with (S c + List.length ls) by lia.
    apply IH.
Qed.

Lemma catchBlock_fieldsOk job e st :
  storeFieldsOk st -> storeFieldsOk (catchBlock job e st).
Proof.
  unfold storeFieldsOk, catchBlock. intros H.
  destruct (mentionsEntityNotFound e); simpl;
    apply patchById_fieldsOk; auto; intros j; apply withFailed_fieldsOk.
Qed.

Lemma outcomeWrite_fieldsOk outcome job st :
  storeFieldsOk st -> storeFieldsOk (outcomeWrite outcome job st).
Proof.
  intros H. unfold storeFieldsOk in *. apply Forall_forall. intros j' Hj'.
  rewrite Forall_forall in H.
  destruct (outcomeWrite_frame outcome job st) as (_ & _ & _ & _ & Hc & _).
  apply outcomeWrite_In in Hj'
    as (j & Hj & [(Hid & [(r & k & _ & Hk & ->)|(e & _ & ->)])|(Hid & ->)]).
  - apply (withCompleted_fieldsOk (c := clockCalls st)); auto.
  - apply withFailed_fieldsOk. eapply jobFieldsOk_later; eauto.
  - eapply jobFieldsOk_later; eauto.
Qed.

Lemma processQueue_fieldsOk fuel env st st' :
  storeFieldsOk st -> processQueue fuel env st = Some st' -> storeFieldsOk st'.
Proof.
  revert st; induction fuel as [|fuel IH]; intros st Hok Hrun;
    [discriminate|].
  simpl in Hrun. destruct (processingRef st); [congruence|].
  destruct (Js.findIndex isPending (cl_jobs env)) as [i|];
    [|injection Hrun as <-; exact Hok].
  destruct (nth_error (cl_jobs env) i) as [job|]; [|congruence].
  assert (Hp : storeFieldsOk
                 (setJobs (patchById (id job) withProcessing)
                    (setIsProcessing true (setProcessingRef true st)))).
  { unfold storeFieldsOk in *; simpl. apply patchById_fieldsOk; auto.
    intros j. apply withProcessing_fieldsOk. }
  destruct (cl_apiKeyReady env); simpl in Hrun.
  - injection Hrun as <-. exact Hp.
  - apply IH in Hrun; [exact Hrun|].
    apply (catchBlock_fieldsOk job (Error "API Key not connected")) in Hp.
    exact Hp.
Qed.

Lemma run_fieldsOk fuel ev st st' :
  storeFieldsOk st -> run fuel ev st = Some st' -> storeFieldsOk st'.
Proof.
  intros Hok Hrun. destruct ev; simpl in Hrun.
  - injection Hrun as <-. destruct hasKey; exact Hok.
  - injection Hrun as <-. destruct selected; exact Hok.
  - injection Hrun as <-. exact Hok.
  - injection Hrun as <-. unfold handleAddJobs.
    destruct (Js.truthy (Js.trim (inputPrompt st))); simpl; [|exact Hok].
    unfold storeFieldsOk in *; simpl. apply Forall_app. split.
    + eapply Forall_impl; [|exact Hok]. intros j.
      apply jobFieldsOk_later. lia.
    + apply newJobsFrom_fieldsOk.
  - injection Hrun as <-. unfold storeFieldsOk in *; simpl.
    apply patchById_fieldsOk; auto. intros j. apply withPending_fieldsOk.
  - injection Hrun as <-. unfold storeFieldsOk in *; simpl.
    apply Forall_forall. intros j Hj. apply filter_In in Hj as [Hj _].
    rewrite Forall_forall in Hok. auto.
  - injection Hrun as <-. destruct confirmed; [constructor | exact Hok].
  - unfold queueEffect in Hrun. destruct (existsb isPending (jobs st)).
    + eapply processQueue_fieldsOk; eauto.
    + congruence.
  - destruct (nth_error (awaiting st) k) as [fr|]; [|congruence].
    destruct (generateVideoWithVeo fuel sdk (prompt (fr_job fr)))
      as [outcome|]; [|discriminate].
    unfold resume, finallyBlock in Hrun.
    eapply processQueue_fieldsOk; [|exact Hrun].
    apply (outcomeWrite_fieldsOk outcome (fr_job fr) (st := dropFrame k st)).
    exact Hok.
Qed.

Lemma reachable_fieldsOk st : reachable st -> storeFieldsOk st.
Proof.
  intros Hr. induction Hr as [|st ev fuel st' _ IH Hrun].
  - constructor.
  - eapply run_fieldsOk; eauto.
Qed.

(** X19. With a clock that does not go back, in every state the component
    visits a COMPLETED job has its result (videoUrl and videoBlob) and a
    completedAt that is not before its createdAt, and a FAILED job has an
    error. *)
Theorem terminal_jobs_carry_their_outcome st j :
  visited st ->
  In j (jobs st) ->
  (status j = COMPLETED ->
   (exists url, videoUrl j = Some url) /\
   (exists b, videoBlob j = Some b) /\
   (exists t, completedAt j = Some t /\ (createdAt j <= t)%Z)) /\
  (status j = FAILED -> exists msg, error j = Some msg).
Proof.
  intros Hv Hj.
  assert (Hok : storeFieldsOk st).
  { destruct Hv as [st Hr | st k fr sdk fuel outcome Hr _ _].
    - now apply reachable_fieldsOk.
    - apply (outcomeWrite_fieldsOk outcome (fr_job fr) (st := dropFrame k st)).
      exact (reachable_fieldsOk Hr). }
  unfold storeFieldsOk in Hok. rewrite Forall_forall in Hok.
  destruct (Hok j Hj) as (_ & H2 & H3 & H4). split.
  - intros Hs. destruct (H3 Hs) as (Hu & Hb & Hc).
    destruct (videoUrl j) as [url|]; [|congruence].
    destruct (videoBlob j) as [b|]; [|congruence].
    destruct (completedAt j) as [t|] eqn:Et; [|congruence].
    repeat split; eauto.
  - intros Hs. specialize (H4 Hs).
    destruct (error j) as [msg|]; [eauto | congruence].
Qed.

End Clock.

(** ** A drain never leaves its first job *)

Lemma sameButProcessing_trans target j1 j2 j3 :
  sameButProcessing target j1 j2 -> sameButProcessing target j2 j3 ->
  sameButProcessing target j1 j3.
Proof.
  unfold sameButProcessing. destruct (Js.eqb (id j1) target) eqn:E1.
  - intros (Hid & Hp & _). rewrite Hid, E1. intros (Hid' & Hp' & Hs).
    repeat split; congruence.
  - intros ->. now rewrite E1.
Qed.

Lemma Forall2_sameButProcessing_trans target l1 l2 l3 :
  Forall2 (sameButProcessing target) l1 l2 ->
  Forall2 (sameButProcessing target) l2 l3 ->
  Forall2 (sameButProcessing target) l1 l3.
Proof.
  intros H12. revert l3. induction H12 as [|a b l1 l2 Hab _ IH]; intros l3 H23;
    inversion H23; subst; constructor.
  - eapply sameButProcessing_trans; eauto.
  - now apply IH.
Qed.

Lemma reprocess_after_failure target msg l :
  Forall2 (sameButProcessing target) l
    (patchById target withProcessing (patchById target (withFailed msg) l)).
Proof.
  unfold patchById, sameButProcessing.
  induction l as [|j l IH]; simpl; constructor; [|exact IH].
  destruct (Js.eqb (id j) target) eqn:E; simpl; rewrite E; simpl; auto.
Qed.

Lemma reprocess_after_success target result c l :
  Forall2 (sameButProcessing target) l
    (patchById target withProcessing (fst (completeById target result c l))).
Proof.
  unfold patchById, sameButProcessing.
  revert c; induction l as [|j l IH]; intros c; simpl; [constructor|].
  destruct (Js.eqb (id j) target) eqn:E.
  - specialize (IH (S c)).
    destruct (completeById target result (S c) l); simpl in *.
    constructor; [|exact IH]. rewrite E. simpl. auto.
  - specialize (IH c).
    destruct (completeById target result c l); simpl in *.
    constructor; [|exact IH]. now rewrite E.
Qed.

Lemma settle_reselects fuel sdk outcome fr st :
  awaiting st = [fr] ->
  wfFrame fr ->
  generateVideoWithVeo (S fuel) sdk (prompt (fr_job fr)) = Some outcome ->
  exists st',
    run (S fuel) (Settle 0 sdk) st = Some st' /\
    awaiting st' = [fr] /\
    calls st' = calls st ++ [prompt (fr_job fr)] /\
    Forall2 (sameButProcessing (id (fr_job fr))) (jobs st) (jobs st').
Proof.
  intros Haw Hwf Hout. unfold run. rewrite Haw. cbn [nth_error]. rewrite Hout.
  rewrite (resume_reselects fuel outcome (dropFrame 0 st) Hwf).
  eexists. split; [reflexivity|].
  destruct (outcomeWrite_frame outcome (fr_job fr) (dropFrame 0 st))
    as (Ha & _ & _ & Hc & _).
  cbn [awaiting calls jobs suspendAt setJobs setIsProcessing setProcessingRef].
  rewrite Ha, Hc. cbn [awaiting calls dropFrame]. rewrite Haw.
  split; [reflexivity|]. split; [reflexivity|].
  destruct outcome as [e|result]; cbn [outcomeWrite].
  - unfold catchBlock.
    destruct (mentionsEntityNotFound e); cbn [jobs setJobs setApiKeyReady dropFrame];
      apply reprocess_after_failure.
  - unfold tryCompleted.
    pose proof (reprocess_after_success (id (fr_job fr)) result
                  (clockCalls (dropFrame 0 st)) (jobs (dropFrame 0 st))) as H.
    destruct (completeById (id (fr_job fr)) result
                (clockCalls (dropFrame 0 st)) (jobs (dropFrame 0 st))).
    exact H.
Qed.

(** However often the client settles, the drain that is running calls it
    again with the prompt of the same job, and the other jobs of the store
    stay as they are. *)
Lemma drain_repeats_its_job fuel sdk outcome fr n : forall st,
  awaiting st = [fr] ->
  wfFrame fr ->
  generateVideoWithVeo (S fuel) sdk (prompt (fr_job fr)) = Some outcome ->
  Forall2 (sameButProcessing (id (fr_job fr))) (jobs st) (jobs st) ->
  exists st',
    runAll (S fuel) (repeat (Settle 0 sdk) n) st = Some st' /\
    awaiting st' = [fr] /\
    calls st' = calls st ++ repeat (prompt (fr_job fr)) n /\
    Forall2 (sameButProcessing (id (fr_job fr))) (jobs st) (jobs st').
Proof.
  induction n as [|n IH]; intros st Haw Hwf Hout Hrefl.
  - exists st. simpl. rewrite app_nil_r. auto.
  - destruct (settle_reselects fuel sdk st Haw Hwf Hout)
      as (st1 & Hrun & Haw1 & Hc1 & Hj1).
    assert (Hrefl1 : Forall2 (sameButProcessing (id (fr_job fr)))
                             (jobs st1) (jobs st1)).
    { clear -Hj1. induction Hj1 as [|a b l l' Hab _ IHl]; constructor; auto.
      unfold sameButProcessing in *.
      destruct (Js.eqb (id a) (id (fr_job fr))) eqn:E.
      - destruct Hab as (Hid & _ & Hs). rewrite Hid, E. auto.
      - subst b. now rewrite E. }
    destruct (IH st1 Haw1 Hwf Hout Hrefl1) as (st' & Hrun' & Haw' & Hc' & Hj').
    exists st'. cbn [repeat runAll]. rewrite Hrun.
    split; [exact Hrun'|]. split; [exact Haw'|]. split.
    + rewrite Hc', Hc1, <- app_assoc. reflexivity.
    + eapply Forall2_sameButProcessing_trans; eauto.
Qed.

(** ** More on strings *)

Lemma split_nonempty sep s : Js.split sep s <> [].
Proof.
  destruct s as [|c s]; simpl; [discriminate|].
  destruct (N.eqb c sep); [discriminate|].
  destruct (Js.split sep s); discriminate.
Qed.

Lemma split_join (s : Js.str) : Js.join 10 (Js.split 10 s) = s.
Proof.
  induction s as [|c s IH]; simpl; [reflexivity|].
  pose proof (split_nonempty 10 s) as Hne.
  destruct (N.eqb c 10) eqn:E.
  - apply N.eqb_eq in E. subst c. simpl.
    destruct (Js.split 10 s) as [|l ls]; [contradiction|].
    simpl in *. now rewrite IH.
  - destruct (Js.split 10 s) as [|l ls]; [contradiction|].
    simpl in *. destruct ls; simpl in *; now rewrite <- IH.
Qed.

(** X1. [split] cuts a text exactly at its line feeds: joining the lines
    with line feeds gives the text back, no line holds a line feed, and
    there is one more line than there are line feeds. *)
Theorem split_lines_round_trip (s : Js.str) :
  Js.join 10 (Js.split 10 s) = s /\
  Forall (fun line => ~ In 10%N line) (Js.split 10 s) /\
  List.length (Js.split 10 s) = S (count_occ N.eq_dec s 10%N).
Proof.
  induction s as [|c s (IHj & IHf & IHl)]; simpl.
  - repeat split. constructor; [tauto | constructor].
  - destruct (N.eqb c 10) eqn:E.
    + apply N.eqb_eq in E. subst c.
      pose proof (split_nonempty 10 s) as Hne.
      destruct (N.eq_dec 10 10) as [_|Hn]; [|contradiction].
      split; [|split].
      * simpl. destruct (Js.split 10 s) as [|l ls]; [contradiction|].
        simpl in *. now rewrite IHj.
      * constructor; [tauto | exact IHf].
      * simpl. now rewrite IHl.
    + apply N.eqb_neq in E.
      destruct (N.eq_dec c 10) as [Hc|_]; [contradiction|].
      destruct (Js.split 10 s) as [|l ls] eqn:Es.
      * now destruct (split_nonempty 10 s).
      * split; [|split].
        -- simpl in *. destruct ls; simpl in *; now rewrite <- IHj.
        -- inversion IHf as [|? ? Hl Hls]; subst. constructor; [|exact Hls].
           intros [Hin|Hin]; [congruence | now apply Hl].
        -- exact IHl.
Qed.

Lemma trimStart_split (s : Js.str) :
  exists pre, s = pre ++ Js.trimStart s /\ forallb Js.isWhiteSpace pre = true.
Proof.
  induction s as [|c s (pre & E & Hpre)]; simpl.
  - exists []. auto.
  - destruct (Js.isWhiteSpace c) eqn:Ec.
    + exists (c :: pre). simpl. rewrite Ec, Hpre. split; [congruence | reflexivity].
    + exists []. auto.
Qed.

Lemma trimStart_fixed (s : Js.str) :
  match s with [] => True | c :: _ => Js.isWhiteSpace c = false end ->
  Js.trimStart s = s.
Proof. destruct s as [|c s]; simpl; [reflexivity|]. now intros ->. Qed.

Lemma trim_idem (s : Js.str) : Js.trim (Js.trim s) = Js.trim s.
Proof.
  destruct (trim_ends s) as [Hhead Hlast].
  unfold Js.trim at 1. rewrite (trimStart_fixed _ Hhead).
  unfold Js.trimEnd. rewrite (trimStart_fixed _ Hlast).
  apply rev_involutive.
Qed.

(** X2. [trim] removes white space at both ends and nothing else: the
    string is the trimmed string between two runs of white space, the
    trimmed string neither starts nor ends with white space, and trimming
    again changes nothing. *)
Theorem trim_strips_only_the_ends (s : Js.str) :
  (exists pre post,
     s = pre ++ Js.trim s ++ post /\
     forallb Js.isWhiteSpace pre = true /\
     forallb Js.isWhiteSpace post = true) /\
  match Js.trim s with [] => True | c :: _ => Js.isWhiteSpace c = false end /\
  match rev (Js.trim s) with [] => True | c :: _ => Js.isWhiteSpace c = false end /\
  Js.trim (Js.trim s) = Js.trim s.
Proof.
  destruct (trim_ends s) as [Hhead Hlast]. split; [|split; [|split]]; auto.
  - destruct (trimStart_split s) as (pre & Es & Hpre).
    destruct (trimStart_split (rev (Js.trimStart s))) as (post & Er & Hpost).
    exists pre, (rev post). split; [|split].
    + unfold Js.trim, Js.trimEnd. rewrite <- rev_app_distr, <- Er.
      now rewrite rev_involutive.
    + exact Hpre.
    + now rewrite forallb_rev.
  - apply trim_idem.
Qed.

Lemma startsWith_iff (s pat : Js.str) :
  Js.startsWith s pat = true <-> exists post, s = pat ++ post.
Proof.
  revert s; induction pat as [|p pat IH]; intros s; simpl.
  - split; [intros _; now exists s | intros _; now destruct s].
  - destruct s as [|c s].
    + split; [discriminate | intros (post & E); discriminate].
    + cbn [Js.startsWith]. rewrite andb_true_iff, N.eqb_eq, IH. split.
      * intros (-> & post & ->). now exists post.
      * intros (post & E). injection E as -> ->. split; [reflexivity|].
        now exists post.
Qed.

Lemma includes_iff (s pat : Js.str) :
  Js.includes s pat = true <-> exists pre post, s = pre ++ pat ++ post.
Proof.
  induction s as [|c s IH]; cbn [Js.includes].
  - rewrite orb_false_r, startsWith_iff. split.
    + intros (post & E). now exists [], post.
    + intros (pre & post & E). symmetry in E.
      apply app_eq_nil in E as [-> E]. apply app_eq_nil in E as [-> ->].
      now exists [].
  - rewrite orb_true_iff, startsWith_iff, IH. split.
    + intros [(post & E)|(pre & post & E)].
      * now exists [], post.
      * exists (c :: pre), post. simpl. congruence.
    + intros ([|c' pre] & post & E).
      * left. now exists post.
      * right. injection E as _ E. now exists pre, post.
Qed.

(** X3. The test both files make on a caught error holds exactly when the
    error has a message with "Requested entity was not found" somewhere
    inside it. *)
Theorem marker_test_is_substring (e : JsError) :
  mentionsEntityNotFound e = true <->
  exists pre post, message e = Some (pre ++ entityNotFound ++ post).
Proof.
  unfold mentionsEntityNotFound. destruct (message e) as [m|]; split.
  - intros H. apply andb_true_iff in H as [_ H].
    apply includes_iff in H as (pre & post & ->). now exists pre, post.
  - intros (pre & post & E). injection E as ->. apply andb_true_iff. split.
    + destruct pre; reflexivity.
    + apply includes_iff. now exists pre, post.
  - discriminate.
  - intros (pre & post & E). discriminate.
Qed.

(** ** More on batch add *)

Lemma join_blank (ls : list Js.str) :
  Forall (fun l => forallb Js.isWhiteSpace l = true) ls ->
  forallb Js.isWhiteSpace (Js.join 10 ls) = true.
Proof.
  induction 1 as [|l ls Hl Hls IH]; simpl; [reflexivity|].
  destruct ls as [|l' ls']; [exact Hl|].
  rewrite forallb_app, Hl. simpl in *. exact IH.
Qed.

Lemma nonblank_text_has_nonblank_line (s : Js.str) :
  forallb Js.isWhiteSpace s = false ->
  filter (fun l => negb (forallb Js.isWhiteSpace l)) (Js.split 10 s) <> [].
Proof.
  intros Hs Hnil.
  assert (Hall : Forall (fun l => forallb Js.isWhiteSpace l = true)
                        (Js.split 10 s)).
  { apply Forall_forall. intros l Hl.
    destruct (forallb Js.isWhiteSpace l) eqn:E; [reflexivity|].
    assert (Hin : In l (filter (fun l => negb (forallb Js.isWhiteSpace l))
                               (Js.split 10 s))).
    { apply filter_In. split; [exact Hl|]. now rewrite E. }
    rewrite Hnil in Hin. destruct Hin. }
  apply join_blank in Hall.
  rewrite split_join in Hall. congruence.
Qed.

(** X4. The guard of [handleAddJobs] and its filter agree. On a text made
    of white space only (the empty text too) nothing changes, the text
    stays in the box. On any other text at least one job is added, the box
    is emptied, and as many ids and clock readings are drawn as jobs are
    added. *)
Theorem handleAddJobs_acts_iff_text (st : State) :
  if forallb Js.isWhiteSpace (inputPrompt st)
  then handleAddJobs st = st
  else inputPrompt (handleAddJobs st) = [] /\
       List.length (jobs st) < List.length (jobs (handleAddJobs st)) /\
       uuidCalls (handleAddJobs st) - uuidCalls st =
         List.length (jobs (handleAddJobs st)) - List.length (jobs st) /\
       clockCalls (handleAddJobs st) - clockCalls st =
         List.length (jobs (handleAddJobs st)) - List.length (jobs st).
Proof.
  destruct (forallb Js.isWhiteSpace (inputPrompt st)) eqn:Hb.
  - unfold handleAddJobs. apply trim_nil_iff in Hb. now rewrite Hb.
  - unfold handleAddJobs.
    destruct (Js.trim (inputPrompt st)) as [|c t] eqn:Et.
    + apply trim_nil_iff in Et. congruence.
    + cbn [Js.truthy negb]. rewrite (filter_ext _ _ nonblank_test).
      pose proof (nonblank_text_has_nonblank_line _ Hb) as Hne.
      set (lines := filter _ _) in *.
      cbn [inputPrompt jobs uuidCalls clockCalls setInputPrompt setJobs
           withCounters].
      rewrite length_app, newJobsFrom_length.
      destruct lines as [|l ls]; [contradiction|]. simpl.
      repeat split; lia.
Qed.

Lemma filter_status_newJobs s u c lines :
  filter (fun j => JobStatus_eqb (status j) s) (newJobsFrom u c lines) =
  if JobStatus_eqb PENDING s then newJobsFrom u c lines else [].
Proof.
  revert u c; induction lines as [|l ls IH]; intros u c; simpl.
  - now destruct s.
  - rewrite IH. now destruct s.
Qed.

(** X5. The statistics panel after a batch: the pending count grows by the
    number of lines of the text that are not white space only, and the
    completed count stays. *)
Theorem stats_after_batch (st : State) :
  pendingCount (handleAddJobs st) =
    pendingCount st +
    List.length (filter (fun l => negb (forallb Js.isWhiteSpace l))
                        (Js.split 10 (inputPrompt st))) /\
  completedCount (handleAddJobs st) = completedCount st.
Proof.
  unfold pendingCount, completedCount, handleAddJobs.
  destruct (Js.truthy (Js.trim (inputPrompt st))) eqn:Ht; simpl.
  - rewrite (filter_ext _ _ nonblank_test). rewrite !filter_app, !length_app.
    rewrite !filter_status_newJobs. simpl.
    rewrite newJobsFrom_length. split; [reflexivity | lia].
  - assert (Hb : forallb Js.isWhiteSpace (inputPrompt st) = true).
    { apply trim_nil_iff. destruct (Js.trim (inputPrompt st));
        [reflexivity | discriminate]. }
    apply split_blank in Hb.
    assert (Hnil : filter (fun l => negb (forallb Js.isWhiteSpace l))
                          (Js.split 10 (inputPrompt st)) = []).
    { induction Hb as [|l ls Hl _ IH]; simpl; [reflexivity|].
      now rewrite Hl. }
    rewrite Hnil. simpl. split; lia.
Qed.

(** ** Key selection *)

(** X6. [handleConnect] marks the key ready exactly when the overlay has
    [openSelectKey], that call resolves and the re-check does not reject;
    what the re-check answers is not used, so the key is marked ready even
    when [hasSelectedApiKey] answers false, where the mount check on the
    same overlay marks it not ready. In every other case the state is left
    as it is and an alert is raised; without the overlay the mount check
    answers false. *)
Theorem connect_is_optimistic (w : option Aistudio) (st : State) :
  (connectSelected w = true <->
   exists a, w = Some a /\ openSelectKey a = Some None /\
             forall e, hasSelectedApiKey a <> Some (inl e)) /\
  (if connectSelected w
   then handleConnectVia w st = (setApiKeyReady true st, None)
   else handleConnectVia w st =
        (st, Some (Js.lit "Failed to connect API Key. Please try again."))) /\
  (forall a, w = Some a -> openSelectKey a = Some None ->
             hasSelectedApiKey a = Some (inr false) ->
             apiKeyReady (fst (handleConnectVia w st)) = true /\
             apiKeyReady (initCheckVia w st) = false) /\
  (w = None -> initCheckVia w st = setApiKeyReady false st).
Proof.
  split; [|split; [|split]].
  - unfold connectSelected, promptApiKeySelection, checkApiKeyAvailability.
    destruct w as [[has [[e|]|]]|]; simpl.
    + split; [discriminate|]. intros (a & E & H & _). injection E as <-.
      discriminate.
    + destruct has as [[e|b]|]; simpl.
      * split; [discriminate|]. intros (a & E & _ & H). injection E as <-.
        now destruct (H e).
      * split; [|reflexivity]. intros _. eexists. repeat split. discriminate.
      * split; [|reflexivity]. intros _. eexists. repeat split. discriminate.
    + split; [discriminate|]. intros (a & E & H & _). injection E as <-.
      discriminate.
    + split; [discriminate|]. intros (a & E & _). discriminate.
  - unfold handleConnectVia. destruct (connectSelected w); reflexivity.
  - intros a -> Hopen Hhas.
    unfold handleConnectVia, initCheckVia, connectSelected,
      promptApiKeySelection, checkApiKeyAvailability.
    rewrite Hopen, Hhas. split; reflexivity.
  - intros ->. reflexivity.
Qed.

(** ** Retry and delete together *)

Lemma setJobs_ext f g st :
  f (jobs st) = g (jobs st) -> setJobs f st = setJobs g st.
Proof. intros H. unfold setJobs. now rewrite H. Qed.

Lemma patch_pending_twice target l :
  patchById target withPending (patchById target withPending l) =
  patchById target withPending l.
Proof.
  unfold patchById. rewrite map_map. apply map_ext. intros j.
  destruct (Js.eqb (id j) target) eqn:E; simpl; now rewrite E.
Qed.

Lemma filter_patch_same target f l :
  (forall j, id (f j) = id j) ->
  filter (fun j => negb (Js.eqb (id j) target)) (patchById target f l) =
  filter (fun j => negb (Js.eqb (id j) target)) l.
Proof.
  intros Hf. unfold patchById. induction l as [|j l IH]; simpl; [reflexivity|].
  destruct (Js.eqb (id j) target) eqn:E; simpl.
  - rewrite Hf, E. simpl. exact IH.
  - rewrite E. simpl. now rewrite IH.
Qed.

(** X7. Pressing Retry or Remove twice is the same as pressing it once;
    removing jobs in either order gives the same store; and retrying a job
    does not matter once it is removed, before or after the removal. *)
Theorem retry_delete_compose (a b : Js.str) (st : State) :
  retryJob a (retryJob a st) = retryJob a st /\
  deleteJob a (deleteJob a st) = deleteJob a st /\
  deleteJob a (deleteJob b st) = deleteJob b (deleteJob a st) /\
  retryJob a (deleteJob a st) = deleteJob a st /\
  deleteJob a (retryJob a st) = deleteJob a st.
Proof.
  unfold retryJob, deleteJob. destruct st; unfold setJobs; simpl.
  repeat split; f_equal.
  - apply patch_pending_twice.
  - induction jobs0 as [|j l IH]; simpl; [reflexivity|].
    destruct (Js.eqb (id j) a) eqn:E; simpl; [exact IH|].
    rewrite E. simpl. now rewrite IH.
  - induction jobs0 as [|j l IH]; simpl; [reflexivity|].
    destruct (Js.eqb (id j) a) eqn:Ea, (Js.eqb (id j) b) eqn:Eb; simpl;
      rewrite ?Ea, ?Eb; simpl; now rewrite ?IH.
  - apply patchById_absent. intros H.
    apply in_map_iff in H as (j & Hid & Hj). apply filter_In in Hj as [_ Hj].
    rewrite Hid, Js_eqb_refl in Hj. discriminate.
  - apply filter_patch_same. reflexivity.
Qed.

(** ** The client, from request to download *)

Lemma pollUntilDone_done fuel sdk op r :
  pollUntilDone fuel sdk op = Some (inr r) -> op_done r = true.
Proof.
  revert op; induction fuel as [|fuel IH]; intros op; simpl.
  - destruct (op_done op) eqn:E; [|discriminate]. congruence.
  - destruct (op_done op) eqn:E; [congruence|].
    destruct (getVideosOperation sdk op) as [e|op']; [discriminate|].
    apply IH.
Qed.

(** X8. [generateVideoWithVeo] resolves only after the whole chain went
    through: the constructor did not throw, the operation was started and
    polled until done, it carries a non-empty URI, the download of that URI
    with the key appended answered ok, and the result holds the blob of that
    response with the object URL made from it. *)
Theorem veo_success_means_downloaded fuel sdk prompt result :
  generateVideoWithVeo fuel sdk prompt = Some (inr result) ->
  newGoogleGenAI sdk = None /\
  exists op0 op uri resp,
    generateVideos sdk prompt = inr op0 /\
    pollUntilDone fuel sdk op0 = Some (inr op) /\
    op_done op = true /\
    op_uri op = Some uri /\ uri <> [] /\
    fetch sdk (uri ++ Js.lit "&key=" ++ API_KEY sdk) = inr resp /\
    ok resp = true /\
    blob resp = inr (r_videoBlob result) /\
    r_videoUrl result = createObjectURL sdk (r_videoBlob result).
Proof.
  unfold generateVideoWithVeo, veoTry.
  destruct (newGoogleGenAI sdk); [discriminate|].
  destruct (generateVideos sdk prompt) as [e|op0]; [discriminate|].
  destruct (pollUntilDone fuel sdk op0) as [[e|op]|] eqn:Hp; try discriminate.
  destruct (op_uri op) as [[|c uri]|] eqn:Hu; try discriminate.
  destruct (fetch sdk ((c :: uri) ++ Js.lit "&key=" ++ API_KEY sdk))
    as [e|resp] eqn:Hf; [discriminate|].
  destruct (ok resp) eqn:Hok; [|discriminate]. simpl.
  destruct (blob resp) as [e|b] eqn:Hb; [discriminate|].
  intros H. injection H as <-. split; [reflexivity|].
  exists op0, op, (c :: uri), resp. repeat split; auto.
  - eapply pollUntilDone_done; eauto.
  - discriminate.
Qed.

Lemma download_message_marker (t : Js.str) :
  mentionsEntityNotFound
    (mkError (Some (Js.lit "Failed to download video: " ++ t))) =
  Js.includes t entityNotFound.
Proof.
  unfold mentionsEntityNotFound, entityNotFound. cbn [message].
  let v := eval vm_compute in (Js.lit "Failed to download video: ") in
  change (Js.lit "Failed to download video: ") with v.
  let v := eval vm_compute in (Js.lit "Requested entity was not found") in
  change (Js.lit "Requested entity was not found") with v.
  reflexivity.
Qed.

(** X10. When the operation is done, what is wrong with its result is
    reported as follows. Without a URI (none, or the empty string) the call
    rejects with "Video generation completed but no URI was returned.",
    whatever the download would answer. With a URI and a response that is
    not ok it rejects with "Failed to download video: " followed by the
    status text, unless the status text holds "Requested entity was not
    found": then it rejects as for an expired key session. *)
Theorem veo_reports_what_failed fuel sdk prompt op0 op :
  newGoogleGenAI sdk = None ->
  generateVideos sdk prompt = inr op0 ->
  pollUntilDone fuel sdk op0 = Some (inr op) ->
  match op_uri op with
  | None | Some [] =>
      generateVideoWithVeo fuel sdk prompt =
      Some (inl (Error "Video generation completed but no URI was returned."))
  | Some uri =>
      forall resp,
        fetch sdk (uri ++ Js.lit "&key=" ++ API_KEY sdk) = inr resp ->
        ok resp = false ->
        generateVideoWithVeo fuel sdk prompt =
        Some (inl (if Js.includes (statusText resp) entityNotFound
                   then Error
                     "API Key session expired or invalid. Please re-select your key."
                   else mkError (Some (Js.lit "Failed to download video: "
                                         ++ statusText resp))))
  end.
Proof.
  intros Hc Hg Hp. unfold generateVideoWithVeo, veoTry. rewrite Hc, Hg, Hp.
  destruct (op_uri op) as [[|c uri]|]; try reflexivity.
  intros resp Hf Hok. rewrite Hf, Hok. cbn [negb]. unfold veoCatch.
  now rewrite download_message_marker.
Qed.

(** ** The texts of jobs, calls and cards *)

Lemma messageOrDefault_nonempty e : messageOrDefault e <> [].
Proof.
  unfold messageOrDefault. destruct (message e) as [[|c m]|]; discriminate.
Qed.

Lemma withProcessing_textOk j : jobTextOk j -> jobTextOk (withProcessing j).
Proof.
  intros (H1 & H2 & H3 & H4). repeat split; simpl; auto; discriminate.
Qed.

Lemma withPending_textOk j : jobTextOk j -> jobTextOk (withPending j).
Proof.
  intros (H1 & H2 & H3 & H4). repeat split; simpl; auto; discriminate.
Qed.

Lemma withCompleted_textOk result t j :
  jobTextOk j -> jobTextOk (withCompleted result t j).
Proof.
  intros (H1 & H2 & H3 & H4). repeat split; simpl; auto; discriminate.
Qed.

Lemma withFailed_textOk e j :
  jobTextOk j -> jobTextOk (withFailed (messageOrDefault e) j).
Proof.
  intros (H1 & H2 & H3 & H4). repeat split; simpl; auto; try discriminate.
  intros m Hm. injection Hm as <-. apply messageOrDefault_nonempty.
Qed.

Lemma patchById_textOk target f l :
  (forall j, jobTextOk j -> jobTextOk (f j)) ->
  Forall jobTextOk l -> Forall jobTextOk (patchById target f l).
Proof.
  intros Hf H. unfold patchById. apply Forall_map.
  eapply Forall_impl; [|exact H]. intros j Hj. simpl.
  destruct (Js.eqb (id j) target); auto.
Qed.

Lemma newJobsFrom_textOk u c lines :
  Forall (fun l => Js.trim l <> []) lines ->
  Forall jobTextOk (newJobsFrom u c lines).
Proof.
  intros H. revert u c. induction H as [|l ls Hl _ IH]; intros u c; simpl;
    constructor; [|apply IH].
  repeat split; simpl; auto; try discriminate. apply trim_idem.
Qed.

Lemma outcomeWrite_textOk outcome job st :
  textOk st -> textOk (outcomeWrite outcome job st).
Proof.
  intros (Hj & Hf & Hc).
  destruct (outcomeWrite_frame outcome job st) as (Ha & _ & _ & Hcalls & _).
  split; [|split].
  - apply Forall_forall. intros j' Hj'. rewrite Forall_forall in Hj.
    apply outcomeWrite_In in Hj'
      as (j & Hin & [(_ & [(r & k & _ & _ & ->)|(e & _ & ->)])|(_ & ->)]).
    + apply withCompleted_textOk; auto.
    + apply withFailed_textOk; auto.
    + auto.
  - now rewrite Ha.
  - now rewrite Hcalls.
Qed.

Lemma processQueue_textOk fuel env st st' :
  textOk st -> Forall jobTextOk (cl_jobs env) ->
  processQueue fuel env st = Some st' -> textOk st'.
Proof.
  intros Hok Henv. revert st Hok.
  induction fuel as [|fuel IH]; intros st Hok Hrun; [discriminate|].
  simpl in Hrun. destruct (processingRef st); [congruence|].
  destruct (Js.findIndex isPending (cl_jobs env)) as [i|];
    [|injection Hrun as <-; exact Hok].
  destruct (nth_error (cl_jobs env) i) as [job|] eqn:Hjob; [|congruence].
  assert (Hjobok : jobTextOk job).
  { rewrite Forall_forall in Henv. apply Henv. eapply nth_error_In; eauto. }
  destruct Hok as (Hj & Hf & Hc).
  assert (Hp : Forall jobTextOk (patchById (id job) withProcessing (jobs st))).
  { apply patchById_textOk; auto. intros j. apply withProcessing_textOk. }
  destruct (cl_apiKeyReady env); simpl in Hrun.
  - injection Hrun as <-. split; [|split]; simpl.
    + exact Hp.
    + intros fr Hin. apply in_app_iff in Hin as [Hin|[<-|[]]]; auto.
    + intros p Hin. apply in_app_iff in Hin as [Hin|[<-|[]]]; auto.
      destruct Hjobok as (H1 & H2 & _). auto.
  - apply IH in Hrun; [exact Hrun|]. split; [|split]; simpl; auto.
    unfold catchBlock.
    change (mentionsEntityNotFound (Error "API Key not connected")) with false.
    simpl. apply patchById_textOk; auto. intros j. apply withFailed_textOk.
Qed.

Lemma run_textOk fuel ev st st' :
  textOk st -> run fuel ev st = Some st' -> textOk st'.
Proof.
  intros Hok Hrun. pose proof Hok as (Hj & Hf & Hc).
  destruct ev; simpl in Hrun.
  - injection Hrun as <-. destruct hasKey; exact Hok.
  - injection Hrun as <-. destruct selected; exact Hok.
  - injection Hrun as <-. exact Hok.
  - injection Hrun as <-. unfold handleAddJobs.
    destruct (Js.truthy (Js.trim (inputPrompt st))); simpl; [|exact Hok].
    split; [|split]; simpl; auto.
    apply Forall_app. split; [exact Hj|]. apply newJobsFrom_textOk.
    apply Forall_forall. intros l Hl. apply filter_In in Hl as [_ Hl].
    destruct (Js.trim l); [discriminate | discriminate].
  - injection Hrun as <-. split; [|split]; simpl; auto.
    apply patchById_textOk; auto. intros j. apply withPending_textOk.
  - injection Hrun as <-. split; [|split]; simpl; auto.
    apply Forall_forall. intros j Hin. apply filter_In in Hin as [Hin _].
    rewrite Forall_forall in Hj. auto.
  - injection Hrun as <-. destruct confirmed; [|exact Hok].
    split; [|split]; simpl; auto.
  - unfold queueEffect in Hrun. destruct (existsb isPending (jobs st)).
    + eapply processQueue_textOk; [exact Hok| |exact Hrun]. exact Hj.
    + congruence.
  - destruct (nth_error (awaiting st) k) as [fr|] eqn:Hfr; [|congruence].
    destruct (generateVideoWithVeo fuel sdk (prompt (fr_job fr)))
      as [outcome|]; [|discriminate].
    unfold resume, finallyBlock in Hrun.
    assert (Henv : Forall jobTextOk (cl_jobs (fr_env fr))).
    { apply Hf. eapply nth_error_In; eauto. }
    assert (Hd : textOk (dropFrame k st)).
    { split; [|split]; simpl; auto. intros fr' Hin. apply Hf.
      clear -Hin. revert k Hin.
      induction (awaiting st) as [|a l IHl]; intros [|k] Hin; simpl in *;
        try tauto.
      destruct Hin as [Hin|Hin]; [now left | right; eauto]. }
    eapply processQueue_textOk; [|exact Henv|exact Hrun].
    destruct (outcomeWrite_textOk outcome (fr_job fr) Hd) as (H1 & H2 & H3).
    split; [|split]; simpl; auto.
Qed.

Lemma visited_textOk st : visited st -> textOk st.
Proof.
  assert (Hreach : forall s, reachable s -> textOk s).
  { intros s Hr. induction Hr as [|s ev fuel s' _ IH Hrun].
    - split; [constructor|]. split; intros ? [].
    - eapply run_textOk; eauto. }
  intros [s Hr | s k fr sdk fuel outcome Hr Hfr Hout]; [now apply Hreach|].
  apply outcomeWrite_textOk. destruct (Hreach s Hr) as (Hj & Hf & Hc).
  split; [|split]; simpl; auto. intros fr' Hin. apply Hf.
  clear -Hin. revert k Hin.
  induction (awaiting s) as [|a l IHl]; intros [|k] Hin; simpl in *; try tauto.
  destruct Hin as [Hin|Hin]; [now left | right; eauto].
Qed.

(** X11. Every prompt the component has given to the client is a prompt as
    batch add makes them: not empty, with no white space to trim at either
    end. *)
Theorem client_gets_trimmed_prompts st p :
  visited st -> In p (calls st) -> p <> [] /\ Js.trim p = p.
Proof. intros Hv Hin. destruct (visited_textOk Hv) as (_ & _ & Hc). auto. Qed.

(** X12. A card offers Retry only for a FAILED job, with the id of that
    job; the text it shows with it is then the message stored on the job,
    which is never empty: the fallback "Unknown error occurred" is not
    reached. A card without Retry shows no error text. *)
Theorem failed_card_shows_stored_message st j :
  visited st -> In j (jobs st) ->
  match cv_retry (JobCard j) with
  | Some target =>
      target = id j /\ status j = FAILED /\
      exists m, error j = Some m /\ m <> [] /\
                cv_errorText (JobCard j) = Some m
  | None => status j <> FAILED /\ cv_errorText (JobCard j) = None
  end.
Proof.
  intros Hv Hin. destruct (visited_textOk Hv) as (Hj & _ & _).
  rewrite Forall_forall in Hj. destruct (Hj j Hin) as (_ & _ & Hm & Hf).
  unfold JobCard; simpl. destruct (status j) eqn:Hs; simpl;
    try (split; [discriminate | reflexivity]).
  split; [reflexivity|]. split; [reflexivity|].
  destruct (error j) as [m|] eqn:He; [|now destruct (Hf eq_refl)].
  exists m. specialize (Hm m eq_refl).
  destruct m as [|c m]; [contradiction|]. repeat split; auto.
Qed.

(** ** What the store keeps *)

Lemma visited_ids st :
  (forall m n, randomUUID m = randomUUID n -> m = n) ->
  visited st -> NoDup (map id (jobs st)) /\ idsKnown st.
Proof.
  intros Hinj [s Hr | s k fr sdk fuel outcome Hr Hfr Hout].
  - destruct (reachable_singleFlight Hinj Hr) as (Hnd & Hk & _). auto.
  - destruct (reachable_singleFlight Hinj Hr) as (Hnd & Hk & _).
    destruct (outcomeWrite_frame outcome (fr_job fr) (dropFrame k s))
      as (_ & _ & Hu & _ & _ & Hids).
    split; [now rewrite Hids|].
    intros x. rewrite Hids, Hu. apply Hk.
Qed.

(** X13. As long as [crypto.randomUUID()] does not repeat itself, no two
    jobs of the store have the same id, and every id in the store is one
    that was drawn. *)
Theorem ids_stay_unique st :
  (forall m n, randomUUID m = randomUUID n -> m = n) ->
  visited st ->
  NoDup (map id (jobs st)) /\
  forall j, In j (jobs st) -> exists n, n < uuidCalls st /\ id j = randomUUID n.
Proof.
  intros Hinj Hv. destruct (visited_ids Hinj Hv) as [Hnd Hk].
  split; [exact Hnd|]. intros j Hj. apply Hk. now apply in_map.
Qed.

Lemma sameIdentity_refl j : sameIdentity j j.
Proof. repeat split. Qed.

Lemma Forall2_sameIdentity_refl l : Forall2 sameIdentity l l.
Proof. induction l; constructor; auto using sameIdentity_refl. Qed.

Lemma Forall2_sameIdentity_trans l1 l2 l3 :
  Forall2 sameIdentity l1 l2 -> Forall2 sameIdentity l2 l3 ->
  Forall2 sameIdentity l1 l3.
Proof.
  intros H12. revert l3. induction H12 as [|a b l1 l2 Hab _ IH]; intros l3 H23;
    inversion H23 as [|? c ? l3' Hbc Hrest]; subst; constructor.
  - destruct Hab as (A1 & A2 & A3 & A4), Hbc as (B1 & B2 & B3 & B4).
    repeat split; congruence.
  - now apply IH.
Qed.

Lemma patchById_sameIdentity target f l :
  (forall j, sameIdentity j (f j)) ->
  Forall2 sameIdentity l (patchById target f l).
Proof.
  intros Hf. unfold patchById. induction l as [|j l IH]; simpl; constructor;
    [|exact IH].
  destruct (Js.eqb (id j) target); [apply Hf | apply sameIdentity_refl].
Qed.

Lemma completeById_sameIdentity target result c l :
  Forall2 sameIdentity l (fst (completeById target result c l)).
Proof.
  revert c; induction l as [|j l IH]; intros c; simpl; [constructor|].
  destruct (Js.eqb (id j) target).
  - specialize (IH (S c)).
    destruct (completeById target result (S c) l); simpl in *.
    constructor; [repeat split | exact IH].
  - specialize (IH c).
    destruct (completeById target result c l); simpl in *.
    constructor; [apply sameIdentity_refl | exact IH].
Qed.

Lemma catchBlock_sameIdentity job e st :
  Forall2 sameIdentity (jobs st) (jobs (catchBlock job e st)).
Proof.
  unfold catchBlock. destruct (mentionsEntityNotFound e); simpl;
    apply patchById_sameIdentity; intros j; repeat split.
Qed.

Lemma outcomeWrite_sameIdentity outcome job st :
  Forall2 sameIdentity (jobs st) (jobs (outcomeWrite outcome job st)).
Proof.
  destruct outcome as [e|result]; simpl.
  - apply catchBlock_sameIdentity.
  - unfold tryCompleted.
    pose proof (completeById_sameIdentity (id job) result (clockCalls st)
                  (jobs st)) as H.
    destruct (completeById (id job) result (clockCalls st) (jobs st)).
    exact H.
Qed.

Lemma processQueue_sameIdentity fuel env st st' :
  processQueue fuel env st = Some st' ->
  Forall2 sameIdentity (jobs st) (jobs st').
Proof.
  revert st; induction fuel as [|fuel IH]; intros st Hrun; [discriminate|].
  simpl in Hrun. destruct (processingRef st).
  { injection Hrun as <-. apply Forall2_sameIdentity_refl. }
  destruct (Js.findIndex isPending (cl_jobs env)) as [i|];
    [|injection Hrun as <-; apply Forall2_sameIdentity_refl].
  destruct (nth_error (cl_jobs env) i) as [job|];
    [|injection Hrun as <-; apply Forall2_sameIdentity_refl].
  assert (Hp : Forall2 sameIdentity (jobs st)
                 (patchById (id job) withProcessing (jobs st))).
  { apply patchById_sameIdentity. intros j. repeat split. }
  destruct (cl_apiKeyReady env); simpl in Hrun.
  - injection Hrun as <-. exact Hp.
  - apply IH in Hrun. eapply Forall2_sameIdentity_trans; [exact Hp|].
    eapply Forall2_sameIdentity_trans; [|exact Hrun].
    apply (catchBlock_sameIdentity job (Error "API Key not connected")
             (setJobs (patchById (id job) withProcessing)
                (setIsProcessing true (setProcessingRef true st)))).
Qed.

(** X14. Only batch add, remove and clear change which jobs the store
    holds. Every other event (retry, the queue effect, a settling call,
    connect, the mount check, typing) leaves the store with the same number
    of jobs in the same order, each with the id, prompt, createdAt and
    fileName it had. *)
Theorem jobs_keep_their_identity fuel ev st st' :
  run fuel ev st = Some st' ->
  changesMembership ev = false ->
  Forall2 sameIdentity (jobs st) (jobs st').
Proof.
  intros Hrun Hev. destruct ev; try discriminate; simpl in Hrun.
  - injection Hrun as <-. destruct hasKey; apply Forall2_sameIdentity_refl.
  - injection Hrun as <-. destruct selected; apply Forall2_sameIdentity_refl.
  - injection Hrun as <-. apply Forall2_sameIdentity_refl.
  - injection Hrun as <-. simpl. apply patchById_sameIdentity.
    intros j. repeat split.
  - unfold queueEffect in Hrun. destruct (existsb isPending (jobs st)).
    + eapply processQueue_sameIdentity; eauto.
    + injection Hrun as <-. apply Forall2_sameIdentity_refl.
  - destruct (nth_error (awaiting st) k) as [fr|];
      [|injection Hrun as <-; apply Forall2_sameIdentity_refl].
    destruct (generateVideoWithVeo fuel sdk (prompt (fr_job fr)))
      as [outcome|]; [|discriminate].
    unfold resume, finallyBlock in Hrun.
    apply processQueue_sameIdentity in Hrun.
    eapply Forall2_sameIdentity_trans; [|exact Hrun].
    apply (outcomeWrite_sameIdentity outcome (fr_job fr) (dropFrame k st)).
Qed.

(** ** The indicator and the first admission *)

Lemma processQueue_indicator fuel env st st' :
  singleFlight st ->
  (awaiting st <> [] -> isProcessing st = true) ->
  processQueue fuel env st = Some st' ->
  awaiting st' <> [] -> isProcessing st' = true.
Proof.
  intros Hsf Hind Hrun. destruct fuel as [|fuel]; [discriminate|].
  destruct (processingRef st) eqn:Href.
  - rewrite processQueue_guard in Hrun by assumption.
    injection Hrun as <-. exact Hind.
  - destruct (Js.findIndex isPending (cl_jobs env)) as [i|] eqn:Hi.
    + destruct (findIndex_Some _ _ Hi) as (job & Hj & _).
      destruct (cl_apiKeyReady env) eqn:Hready.
      * rewrite (processQueue_ready_pass _ _ _ Href Hi Hj Hready) in Hrun.
        injection Hrun as <-. reflexivity.
      * rewrite (processQueue_not_ready_diverges (S fuel) _ _ Href Hi Hready)
          in Hrun.
        discriminate.
    + simpl in Hrun. rewrite Href, Hi in Hrun. injection Hrun as <-. simpl.
      destruct Hsf as (_ & _ & Hfl).
      destruct (awaiting st) as [|fr [|fr2 rest]]; [congruence| |contradiction].
      destruct Hfl as [Hr _]. congruence.
Qed.

Lemma reachable_indicator st :
  (forall m n, randomUUID m = randomUUID n -> m = n) ->
  reachable st -> awaiting st <> [] -> isProcessing st = true.
Proof.
  intros Hinj Hr. induction Hr as [|st ev fuel st' Hr IH Hrun].
  - simpl. congruence.
  - pose proof (reachable_singleFlight Hinj Hr) as Hsf.
    destruct ev; simpl in Hrun.
    + injection Hrun as <-. destruct hasKey; exact IH.
    + injection Hrun as <-. destruct selected; exact IH.
    + injection Hrun as <-. exact IH.
    + injection Hrun as <-. unfold handleAddJobs.
      destruct (Js.truthy (Js.trim (inputPrompt st))); exact IH.
    + injection Hrun as <-. exact IH.
    + injection Hrun as <-. exact IH.
    + injection Hrun as <-. destruct confirmed; exact IH.
    + unfold queueEffect in Hrun. destruct (existsb isPending (jobs st)).
      * eapply processQueue_indicator; eauto.
      * injection Hrun as <-. exact IH.
    + destruct (nth_error (awaiting st) k) as [fr|] eqn:Hfr;
        [|injection Hrun as <-; exact IH].
      destruct (generateVideoWithVeo fuel sdk (prompt (fr_job fr)))
        as [outcome|]; [|discriminate].
      assert (Haw : awaiting st = [fr] /\ k = 0).
      { destruct Hsf as (_ & _ & Hfl).
        destruct (awaiting st) as [|fr0 [|fr1 rest]]; [| |contradiction].
        - destruct k; discriminate.
        - destruct k as [|[|k]]; simpl in Hfr; try discriminate.
          injection Hfr as ->. auto. }
      destruct Haw as [Haw ->].
      destruct (settling_idle outcome Hsf Haw) as (Hidle & _ & Ha0).
      unfold resume, finallyBlock in Hrun.
      eapply processQueue_indicator; [exact Hidle| |exact Hrun].
      simpl. rewrite Ha0. congruence.
Qed.

(** X15. While a client call is in flight the flag behind the "Processing
    Queue..." indicator is set. *)
Theorem indicator_on_while_in_flight st :
  (forall m n, randomUUID m = randomUUID n -> m = n) ->
  visited st -> awaiting st <> [] -> isProcessing st = true.
Proof.
  intros Hinj [s Hr | s k fr sdk fuel outcome Hr Hfr Hout].
  - now apply reachable_indicator.
  - pose proof (reachable_singleFlight Hinj Hr) as Hsf.
    assert (Haw : awaiting s = [fr] /\ k = 0).
    { destruct Hsf as (_ & _ & Hfl).
      destruct (awaiting s) as [|fr0 [|fr1 rest]]; [| |contradiction].
      - destruct k; discriminate.
      - destruct k as [|[|k]]; simpl in Hfr; try discriminate.
        injection Hfr as ->. auto. }
    destruct Haw as [Haw ->].
    destruct (settling_idle outcome Hsf Haw) as (_ & _ & Ha0).
    rewrite Ha0. congruence.
Qed.

(** X16. With no drain running and the key ready, the queue effect admits
    the first PENDING job of the store in insertion order and nothing
    else: that job becomes PROCESSING in place, every other position of the
    store is as before (ids being unique), the client is called once, with
    its prompt, and the busy flag and the indicator are set. *)
Theorem effect_admits_first_pending st i J fuel :
  processingRef st = false ->
  apiKeyReady st = true ->
  NoDup (map id (jobs st)) ->
  nth_error (jobs st) i = Some J ->
  status J = PENDING ->
  (forall k y, k < i -> nth_error (jobs st) k = Some y -> status y <> PENDING) ->
  exists st',
    queueEffect (S fuel) st = Some st' /\
    (forall k, nth_error (jobs st') k =
               if Nat.eqb k i then Some (withProcessing J)
               else nth_error (jobs st) k) /\
    calls st' = calls st ++ [prompt J] /\
    awaiting st' =
      awaiting st ++ [mkFrame (mkClosure (jobs st) true) J] /\
    processingRef st' = true /\ isProcessing st' = true /\
    apiKeyReady st' = true.
Proof.
  intros Href Hready Hnd HJ Hs Hfirst.
  assert (Hp : isPending J = true) by (unfold isPending; now rewrite Hs).
  assert (Hi : Js.findIndex isPending (jobs st) = Some i).
  { apply (@findIndex_first_pending (jobs st) i J HJ Hp). intros k y Hk Hy.
    unfold isPending. specialize (Hfirst k y Hk Hy).
    destruct (status y); try reflexivity. contradiction. }
  assert (Hex : existsb isPending (jobs st) = true).
  { apply existsb_exists. exists J. split; [|exact Hp].
    eapply nth_error_In; eauto. }
  unfold queueEffect. rewrite Hex.
  rewrite (@processQueue_ready_pass fuel (mkClosure (jobs st) (apiKeyReady st))
             st i J Href Hi HJ Hready).
  eexists. split; [reflexivity|]. rewrite Hready.
  split; [|repeat split; auto].
  intros k. cbn [jobs suspendAt setJobs setIsProcessing setProcessingRef].
  rewrite patchById_nth. destruct (Nat.eqb k i) eqn:Ek.
  - apply Nat.eqb_eq in Ek. subst k. rewrite HJ. simpl.
    now rewrite Js_eqb_refl.
  - apply Nat.eqb_neq in Ek.
    destruct (nth_error (jobs st) k) as [y|] eqn:Hy; [|reflexivity]. simpl.
    destruct (Js.eqb (id y) (id J)) eqn:E; [|reflexivity].
    apply Js_eqb_eq in E. exfalso. apply Ek.
    eapply (proj1 (NoDup_nth_error (map id (jobs st))) Hnd).
    + rewrite length_map. apply nth_error_Some. congruence.
    + rewrite !nth_error_map, Hy, HJ. simpl. congruence.
Qed.

(** X17. With a clock that does not go back, the duration a card shows is
    never negative, whatever the status of its job. *)
Theorem card_duration_not_negative st j d :
  (forall m n, m <= n -> (dateNow m <= dateNow n)%Z) ->
  visited st -> In j (jobs st) ->
  cv_durationMs (JobCard j) = Some d -> (0 <= d)%Z.
Proof.
  intros Hmono Hv Hin Hd.
  assert (Hok : storeFieldsOk st).
  { destruct Hv as [s Hr | s k fr sdk fuel outcome Hr _ _].
    - now apply reachable_fieldsOk.
    - apply (outcomeWrite_fieldsOk Hmono outcome (fr_job fr)
               (st := dropFrame k s)).
      exact (reachable_fieldsOk Hmono Hr). }
  unfold storeFieldsOk in Hok. rewrite Forall_forall in Hok.
  destruct (Hok j Hin) as (_ & H2 & _).
  unfold JobCard in Hd; simpl in Hd.
  destruct (completedAt j) as [t|]; [|discriminate].
  specialize (H2 t eq_refl).
  destruct (Z.eqb t 0); [discriminate|]. injection Hd as <-. lia.
Qed.

(** ** The queue column *)

Lemma filter_out_unique_id (l : list VideoJob) k j :
  NoDup (map id l) -> nth_error l k = Some j ->
  filter (fun x => negb (Js.eqb (id x) (id j))) l = dropNth k l.
Proof.
  revert k; induction l as [|a l IH]; intros k Hnd Hk; [now destruct k|].
  inversion Hnd as [|? ? Hfresh Hnd']; subst.
  destruct k as [|k]; simpl in *.
  - injection Hk as ->. rewrite Js_eqb_refl. simpl.
    clear IH Hnd Hnd'. induction l as [|b l IHl]; simpl; [reflexivity|].
    destruct (Js.eqb (id b) (id j)) eqn:E; simpl.
    + apply Js_eqb_eq in E. exfalso. apply Hfresh. left. exact E.
    + f_equal. apply IHl. intros Hin. apply Hfresh. now right.
  - destruct (Js.eqb (id a) (id j)) eqn:E; simpl.
    + apply Js_eqb_eq in E. exfalso. apply Hfresh. rewrite E.
      apply in_map. eapply nth_error_In; eauto.
    + f_equal. now apply IH.
Qed.

Lemma map_dropNth {A B} (f : A -> B) k (l : list A) :
  map f (dropNth k l) = dropNth k (map f l).
Proof.
  revert k; induction l as [|a l IH]; intros [|k]; simpl; auto.
  now rewrite IH.
Qed.

(** X18. The queue column shows the cards newest first. As long as ids are
    unique, the remove button of the card at a position of the column takes
    exactly that card out: the column afterwards is the column before
    without that position, the other cards unchanged and in order. *)
Theorem remove_button_removes_its_card st k card :
  (forall m n, randomUUID m = randomUUID n -> m = n) ->
  visited st ->
  nth_error (renderQueue st) k = Some card ->
  renderQueue (deleteJob (cv_delete card) st) = dropNth k (renderQueue st) /\
  map cv_delete (renderQueue st) = rev (map id (jobs st)).
Proof.
  intros Hinj Hv Hk. destruct (visited_ids Hinj Hv) as [Hnd _].
  unfold renderQueue in *. split.
  - rewrite nth_error_map in Hk.
    destruct (nth_error (rev (jobs st)) k) as [j|] eqn:Hj; [|discriminate].
    injection Hk as <-. cbn [cv_delete JobCard deleteJob jobs setJobs].
    rewrite <- filter_rev, <- map_dropNth. f_equal.
    apply filter_out_unique_id; [|exact Hj].
    rewrite map_rev. now apply NoDup_rev.
  - rewrite map_map, map_rev. reflexivity.
Qed.

(** ** The polling loop *)

(** X9. The polling loop stops at the first finished operation. It
    resolves with [r] exactly when [r] is finished and is reached by polls
    of operations that were all unfinished; it rejects with [e] exactly when
    a poll of an unfinished operation, reached in the same way, rejects with
    [e]; and [fuel] polls do not suffice exactly when they all resolve with
    an unfinished operation. *)
Theorem polling_stops_at_first_done (fuel : nat) (sdk : Sdk) (operation : Operation) :
  (forall r, pollUntilDone fuel sdk operation = Some (inr r) <->
             exists k, k <= fuel /\ pollsTo sdk k operation r /\
                       op_done r = true) /\
  (forall e, pollUntilDone fuel sdk operation = Some (inl e) <->
             exists k last, k < fuel /\ pollsTo sdk k operation last /\
                            op_done last = false /\
                            getVideosOperation sdk last = inl e) /\
  (pollUntilDone fuel sdk operation = None <->
   exists last, pollsTo sdk fuel operation last /\ op_done last = false).
Proof.
  revert operation; induction fuel as [|fuel IH]; intros operation.
  - cbn [pollUntilDone]. destruct (op_done operation) eqn:Hd.
    + split; [|split].
      * intros r. split.
        -- intros [= <-]. exists 0. cbn [pollsTo]. auto.
        -- intros (k & Hk & Hp & _). assert (k = 0) by lia. subst k.
           cbn [pollsTo] in Hp. now subst r.
      * intros e. split; [discriminate|]. intros (k & _ & Hk & _). lia.
      * split; [discriminate|]. intros (last & Hp & Hl).
        cbn [pollsTo] in Hp. congruence.
    + split; [|split].
      * intros r. split; [discriminate|].
        intros (k & Hk & Hp & Hr). assert (k = 0) by lia. subst k.
        cbn [pollsTo] in Hp. congruence.
      * intros e. split; [discriminate|]. intros (k & _ & Hk & _). lia.
      * split; [|reflexivity]. intros _. exists operation.
        cbn [pollsTo]. auto.
  - cbn [pollUntilDone]. destruct (op_done operation) eqn:Hd.
    + split; [|split].
      * intros r. split.
        -- intros [= <-]. exists 0. cbn [pollsTo]. repeat split; auto; lia.
        -- intros (k & Hk & Hp & _). destruct k as [|k]; cbn [pollsTo] in Hp.
           ++ now subst r.
           ++ destruct Hp as [Hp _]. congruence.
      * intros e. split; [discriminate|].
        intros (k & last & _ & Hp & Hl & _).
        destruct k as [|k]; cbn [pollsTo] in Hp.
        -- congruence.
        -- destruct Hp as [Hp _]. congruence.
      * split; [discriminate|]. intros (last & Hp & _).
        cbn [pollsTo] in Hp. destruct Hp as [Hp _]. congruence.
    + destruct (getVideosOperation sdk operation) as [e0|next] eqn:Hg.
      * split; [|split].
        -- intros r. split; [discriminate|].
           intros (k & _ & Hp & Hr). destruct k as [|k]; cbn [pollsTo] in Hp.
           ++ congruence.
           ++ destruct Hp as (_ & next & Hn & _). congruence.
        -- intros e. split.
           ++ intros [= <-]. exists 0, operation. cbn [pollsTo].
              repeat split; auto; lia.
           ++ intros (k & last & _ & Hp & Hl & He).
              destruct k as [|k]; cbn [pollsTo] in Hp.
              ** subst last. congruence.
              ** destruct Hp as (_ & next & Hn & _). congruence.
        -- split; [discriminate|]. intros (last & Hp & _).
           cbn [pollsTo] in Hp. destruct Hp as (_ & next & Hn & _). congruence.
      * destruct (IH next) as (IHr & IHe & IHn). split; [|split].
        -- intros r. rewrite IHr. split.
           ++ intros (k & Hk & Hp & Hr). exists (S k). cbn [pollsTo].
              split; [lia|]. split; [|exact Hr]. split; [exact Hd|].
              exists next. auto.
           ++ intros (k & Hk & Hp & Hr). destruct k as [|k]; cbn [pollsTo] in Hp.
              ** congruence.
              ** destruct Hp as (_ & next' & Hn & Hp).
                 assert (next' = next) by congruence. subst next'.
                 exists k. repeat split; auto; lia.
        -- intros e. rewrite IHe. split.
           ++ intros (k & last & Hk & Hp & Hl & He). exists (S k), last.
              cbn [pollsTo]. split; [lia|]. split; [|auto].
              split; [exact Hd|]. exists next. auto.
           ++ intros (k & last & Hk & Hp & Hl & He).
              destruct k as [|k]; cbn [pollsTo] in Hp.
              ** subst last. congruence.
              ** destruct Hp as (_ & next' & Hn & Hp).
                 assert (next' = next) by congruence. subst next'.
                 exists k, last. repeat split; auto; lia.
        -- rewrite IHn. split.
           ++ intros (last & Hp & Hl). exists last. cbn [pollsTo].
              split; [|exact Hl]. split; [exact Hd|]. exists next. auto.
           ++ intros (last & Hp & Hl). cbn [pollsTo] in Hp.
              destruct Hp as (_ & next' & Hn & Hp).
              assert (next' = next) by congruence. subst next'.
              exists last. auto.
Qed.

(** ** The precondition failure on the engine's stack *)

(** The bound [n] on the nesting is never the limit when it is at least
    the stack that is left. *)
Lemma processQueueOnStack_fuel e env : forall n m room st,
  room <= n -> room <= m ->
  processQueueOnStack e n room env st = processQueueOnStack e m room env st.
Proof.
  induction n as [|n IH]; intros [|m] room st Hn Hm.
  - reflexivity.
  - assert (room = 0) by lia. subst room. reflexivity.
  - assert (room = 0) by lia. subst room. reflexivity.
  - cbn [processQueueOnStack]. cbv zeta.
    destruct (room <=? frameSize e) eqn:E; [reflexivity|].
    apply Nat.leb_gt in E.
    destruct (processingRef st); [reflexivity|].
    destruct (room - S (frameSize e) <? needFindIndex e); [reflexivity|].
    destruct (Js.findIndex isPending (cl_jobs env)); [|reflexivity].
    destruct (nth_error (cl_jobs env) n0); [|reflexivity].
    destruct (room - S (frameSize e) <? needSetState e); [reflexivity|].
    destruct (negb (cl_apiKeyReady env)).
    + apply IH; lia.
    + destruct (room - S (frameSize e) <? needClient e); [|reflexivity].
      apply IH; lia.
Qed.

(** With stack for the calls of one pass, a call from a closure that is
    ready does what [processQueue] does. *)
Lemma processQueueOnStack_agrees e fuel n room env st st' :
  cl_apiKeyReady env = true ->
  S (frameSize e) + needFindIndex e <= room ->
  S (frameSize e) + needSetState e <= room ->
  S (frameSize e) + needClient e <= room ->
  processQueue (S fuel) env st = Some st' ->
  processQueueOnStack e (S n) room env st = st'.
Proof.
  intros Hk Hf Hs Hc. cbn [processQueue processQueueOnStack]. cbv zeta.
  assert (E0 : (room <=? frameSize e) = false) by (apply Nat.leb_gt; lia).
  assert (E1 : (room - S (frameSize e) <? needFindIndex e) = false)
    by (apply Nat.ltb_ge; lia).
  assert (E2 : (room - S (frameSize e) <? needSetState e) = false)
    by (apply Nat.ltb_ge; lia).
  assert (E3 : (room - S (frameSize e) <? needClient e) = false)
    by (apply Nat.ltb_ge; lia).
  rewrite E0, E1, E2, E3, Hk. cbn [negb].
  destruct (processingRef st); [congruence|].
  destruct (Js.findIndex isPending (cl_jobs env)); [|congruence].
  destruct (nth_error (cl_jobs env) n0); congruence.
Qed.








End App.

(* ------------------------------------------------------------------ *)
(** * The component in the sample environment *)

Lemma runAll_app randomUUID dateNow fuel evs1 evs2 st st1 :
  runAll randomUUID dateNow fuel evs1 st = Some st1 ->
  runAll randomUUID dateNow fuel (evs1 ++ evs2) st =
  runAll randomUUID dateNow fuel evs2 st1.
Proof.
  revert st; induction evs1 as [|ev evs1 IH]; simpl; intros st H.
  - congruence.
  - destruct (run randomUUID dateNow fuel ev st) as [st'|]; [|discriminate].
    now apply IH.
Qed.

(** C3, on the code. Jobs A, B, C are added in this order with the key
    ready and a client that always succeeds. However many times the client
    call settles, every call made so far was for the prompt of A, A is
    PROCESSING again, and B and C are still PENDING: the call of line 112 is
    made from the closure whose [jobs] still shows A as PENDING. *)
Theorem drain_never_reaches_second_job :
  forall n, exists st,
    runAll sampleUUID sampleClock 5
      ([Connect true; TypeInput abcText; AddJobs; QueueEffect]
         ++ repeat (Settle 0 sdkSucceeds) n) initialState = Some st /\
    calls st = repeat (Js.lit "A") (S n) /\
    map prompt (jobs st) = [Js.lit "A"; Js.lit "B"; Js.lit "C"] /\
    map status (jobs st) = [PROCESSING; PENDING; PENDING].
Proof.
  intros n.
  eval_to_state (runAll sampleUUID sampleClock 5
    [Connect true; TypeInput abcText; AddJobs; QueueEffect] initialState) st0 H0.
  let f := eval vm_compute in (awaiting st0) in
  match f with [?x] => pose (fr0 := x) end.
  assert (Haw0 : awaiting st0 = [fr0]) by reflexivity.
  assert (Hwf : wfFrame fr0).
  { split; [reflexivity|]. exists 0. split; reflexivity. }
  assert (Hout : exists outcome,
             generateVideoWithVeo 5 sdkSucceeds (prompt (fr_job fr0))
             = Some outcome).
  { eexists. vm_compute. reflexivity. }
  destruct Hout as [outcome Hout].
  assert (Hrefl : Forall2 (sameButProcessing (id (fr_job fr0)))
                          (jobs st0) (jobs st0)).
  { repeat constructor. }
  destruct (@drain_repeats_its_job sampleUUID sampleClock 4 sdkSucceeds outcome
              fr0 n st0 Haw0 Hwf Hout Hrefl)
    as (st & Hrun & _ & Hcalls & Hjobs).
  exists st. rewrite (runAll_app _ _ _ _ _ _ H0). split; [exact Hrun|].
  split; [rewrite Hcalls; reflexivity|].
  unfold st0, fr0 in Hjobs. cbn [jobs fr_job id] in Hjobs.
  inversion Hjobs as [|a a' l l' Ha Hl]; subst.
  inversion Hl as [|b b' l2 l2' Hb Hl2]; subst.
  inversion Hl2 as [|c c' l3 l3' Hc Hl3]; subst.
  inversion Hl3; subst.
  unfold sameButProcessing in Ha, Hb, Hc. simpl in Ha, Hb, Hc.
  destruct Ha as (_ & Hp & Hs). subst b' c'.
  simpl. rewrite Hp, Hs. split; reflexivity.
Qed.

(** C2, on the code. The SDK rejects with "Requested entity was not found.".
    [generateVideoWithVeo] rejects with another message, without the
    marker; the handler of [processQueue] fails the job with that message
    and leaves [apiKeyReady] true. When the marker does reach the handler
    (it is thrown by the constructor, outside the [try]) [apiKeyReady]
    becomes false, and in both cases the [finally] block starts the next
    attempt from the closure in which the key is ready: the client is
    called again, for the same job. *)
Theorem session_invalid_marker_is_lost :
  let marker := "Requested entity was not found."%string in
  let evs := [Connect true; TypeInput (Js.lit "A"); AddJobs; QueueEffect] in
  mentionsEntityNotFound (Error marker) = true /\
  generateVideoWithVeo 5 (sdkRejects marker) (Js.lit "A") =
    Some (inl (Error
      "API Key session expired or invalid. Please re-select your key.")) /\
  (exists st0 fr st1,
     runAll sampleUUID sampleClock 5 evs initialState = Some st0 /\
     awaiting st0 = [fr] /\
     st1 = outcomeWrite sampleClock
             (inl (Error
               "API Key session expired or invalid. Please re-select your key."))
             (fr_job fr) (dropFrame 0 st0) /\
     map (fun j => (status j, error j)) (jobs st1) =
       [(FAILED, Some (Js.lit
          "API Key session expired or invalid. Please re-select your key."))] /\
     apiKeyReady st1 = true) /\
  (exists st,
     runAll sampleUUID sampleClock 5 (evs ++ [Settle 0 (sdkRejects marker)])
       initialState = Some st /\
     apiKeyReady st = true /\
     map status (jobs st) = [PROCESSING] /\
     calls st = [Js.lit "A"; Js.lit "A"] /\ List.length (awaiting st) = 1) /\
  (exists st,
     runAll sampleUUID sampleClock 5
       (evs ++ [Settle 0 (sdkConstructorThrows marker)]) initialState = Some st /\
     apiKeyReady st = false /\
     map status (jobs st) = [PROCESSING] /\
     calls st = [Js.lit "A"; Js.lit "A"] /\ List.length (awaiting st) = 1).
Proof.
  cbv zeta. split; [reflexivity|]. split; [reflexivity|]. split; [|split].
  - eval_to_state (runAll sampleUUID sampleClock 5
    [Connect true; TypeInput (Js.lit "A"); AddJobs; QueueEffect] initialState) st0 H0.
    exists st0. eexists. eexists. split; [exact H0|].
    split; [reflexivity|]. split; [reflexivity|]. split; reflexivity.
  - eexists. split; [vm_compute; reflexivity|]. repeat split.
  - eexists. split; [vm_compute; reflexivity|]. repeat split.
Qed.

(** C5, on the code. One job is added with the key ready. When the client
    rejects the first call and resolves the second, the job is COMPLETED
    and still carries the error of the first attempt; when it resolves the
    first and rejects the second, the job is FAILED and still carries the
    result of the first. No retry is involved: the second attempt is the
    call of line 112 selecting the same job again. *)
Lemma terminal_fields_are_not_exclusive :
  (exists st j, visited sampleUUID sampleClock st /\ In j (jobs st) /\
                status j = COMPLETED /\ error j <> None) /\
  (exists st j, visited sampleUUID sampleClock st /\ In j (jobs st) /\
                status j = FAILED /\ videoUrl j <> None).
Proof.
  split.
  - eval_to_state (runAll sampleUUID sampleClock 5
    [Connect true; TypeInput (Js.lit "A"); AddJobs;
                       QueueEffect; Settle 0 (sdkRejects "quota exceeded")] initialState) st1 H1.
    eexists. eexists. split.
    { eapply (@visit_outcome sampleUUID sampleClock _ 0 _ sdkSucceeds 5 _).
      - eapply runAll_reachable; [apply reach_init | exact H1].
      - reflexivity.
      - vm_compute. reflexivity. }
    split; [simpl; left; reflexivity|]. split; [reflexivity | discriminate].
  - eval_to_state (runAll sampleUUID sampleClock 5
    [Connect true; TypeInput (Js.lit "A"); AddJobs;
                       QueueEffect; Settle 0 sdkSucceeds] initialState) st1 H1.
    eexists. eexists. split.
    { eapply (@visit_outcome sampleUUID sampleClock _ 0 _
              (sdkRejects "quota exceeded") 5 _).
      - eapply runAll_reachable; [apply reach_init | exact H1].
      - reflexivity.
      - vm_compute. reflexivity. }
    split; [simpl; left; reflexivity|]. split; [reflexivity | discriminate].
Qed.


(** On [sampleEngine] the run of the effect on [notReadyStore] ends in the
    pass in which the setter of line 73 no longer fits, after line 72: the
    job is FAILED and the busy flag is left set. On [loggingEngine], where
    [console.error] needs more stack than the setters, the passes that get
    through line 77 do not get through the [catch] block any more: the job
    is left PROCESSING. *)
Lemma stack_ends_the_not_ready_drain :
  map status (jobs (queueEffectOnStack sampleEngine 10 notReadyStore)) =
    [COMPLETED; FAILED] /\
  processingRef (queueEffectOnStack sampleEngine 10 notReadyStore) = true /\
  map status (jobs (queueEffectOnStack loggingEngine 10 notReadyStore)) =
    [COMPLETED; PROCESSING] /\
  processingRef (queueEffectOnStack loggingEngine 10 notReadyStore) = false.
Proof. repeat split. Qed.

(** ** The theorems at concrete inputs *)

(** C1 at the state in which the call for the first of three jobs is in
    flight. *)
Lemma single_flight_witness :
  exists st,
    visited sampleUUID sampleClock st /\ awaiting st <> [] /\
    countProcessing (jobs st) <= 1 /\ List.length (awaiting st) <= 1 /\
    processingRef st = true.
Proof.
  eval_to_state (runAll sampleUUID sampleClock 5
    [Connect true; TypeInput abcText; AddJobs; QueueEffect] initialState) st0 H0.
  assert (Hv : visited sampleUUID sampleClock st0).
  { apply visit_reachable.
    eapply runAll_reachable; [apply reach_init | exact H0]. }
  assert (Hne : awaiting st0 <> []) by discriminate.
  destruct (@single_flight sampleUUID sampleClock st0
              (fun m n H => Nat2N.inj m n
                 (f_equal (fun l => nth 4 l 0%N) H)) Hv)
    as (Hc & Hl & Hg).
  exists st0. split; [exact Hv|]. split; [exact Hne|]. split; [exact Hc|].
  split; [exact Hl | exact (proj1 (Hg Hne))].
Defined.

(** X19 at the store right after a successful outcome write. *)
Lemma terminal_jobs_witness :
  exists st j,
    visited sampleUUID sampleClock st /\ In j (jobs st) /\
    status j = COMPLETED /\
    exists t, completedAt j = Some t /\ (createdAt j <= t)%Z.
Proof.
  eval_to_state (runAll sampleUUID sampleClock 5
    [Connect true; TypeInput abcText; AddJobs; QueueEffect] initialState) st0 H0.
  let f := eval vm_compute in (awaiting st0) in
  match f with [?x] => pose (fr0 := x) end.
  let o := eval vm_compute in
             (generateVideoWithVeo 5 sdkSucceeds (prompt (fr_job fr0))) in
  match o with Some ?x => pose (out := x) end.
  pose (st1 := outcomeWrite sampleClock out (fr_job fr0) (dropFrame 0 st0)).
  assert (Hv : visited sampleUUID sampleClock st1).
  { apply (@visit_outcome sampleUUID sampleClock st0 0 fr0 sdkSucceeds 5 out).
    - eapply runAll_reachable; [apply reach_init | exact H0].
    - reflexivity.
    - vm_compute. reflexivity. }
  let l := eval vm_compute in (jobs st1) in
  match l with ?x :: _ => pose (j0 := x) end.
  assert (Hin : In j0 (jobs st1)) by (left; reflexivity).
  exists st1, j0. split; [exact Hv|]. split; [exact Hin|].
  split; [reflexivity|].
  exact (proj2 (proj2 (proj1
    (@terminal_jobs_carry_their_outcome sampleUUID sampleClock
       (fun m n H => proj1 (Z.add_le_mono_l _ _ 1000)
                       (proj1 (Nat2Z.inj_le m n) H))
       st1 j0 Hv Hin) eq_refl))).
Defined.

(** C9 at a state with a drain in flight. *)
Lemma trigger_is_idempotent_witness :
  exists st,
    runAll sampleUUID sampleClock 5
      [Connect true; TypeInput abcText; AddJobs; QueueEffect] initialState
      = Some st /\
    processingRef st = true /\
    queueEffect 1 st = Some st /\
    runAll sampleUUID sampleClock 1 (repeat QueueEffect 3) st = Some st.
Proof.
  eval_to_state (runAll sampleUUID sampleClock 5
    [Connect true; TypeInput abcText; AddJobs; QueueEffect] initialState) st0 H0.
  exists st0. split; [exact H0|]. split; [reflexivity|].
  destruct (@trigger_is_idempotent sampleUUID sampleClock st0 0 3
              (or_intror eq_refl)) as (Hq & Hr & _).
  split; assumption.
Defined.

(** C10 at [sampleStore], retrying its COMPLETED job. *)
Lemma retryJob_frame_witness :
  exists j',
    nth_error (jobs (retryJob (id completedJob) sampleStore)) 1 = Some j' /\
    status j' = PENDING /\ error j' = None /\
    videoUrl j' = videoUrl completedJob /\
    completedAt j' = completedAt completedJob.
Proof.
  destruct (@retryJob_frame (id completedJob) sampleStore 1 completedJob eq_refl)
    as (j' & Hn & _ & _ & _ & Hu & _ & _ & Hc & Hs & _).
  exists j'. destruct (Hs eq_refl) as [Hst He]. repeat split; assumption.
Defined.

(** ** The further properties at concrete inputs *)

(** X8 at the SDK that succeeds. *)
Lemma veo_success_witness :
  generateVideos sdkSucceeds (Js.lit "A") = inr (mkOperation false None 1) /\
  newGoogleGenAI sdkSucceeds = None.
Proof.
  split; [reflexivity|].
  exact (proj1 (@veo_success_means_downloaded 5 sdkSucceeds (Js.lit "A")
                  (mkResult (Js.lit "blob:1") sampleBlob) eq_refl)).
Defined.

(** X10 at a download that answers "Not Found". *)
Lemma veo_reports_witness :
  generateVideoWithVeo 0 (sdkDownloadFails "Not Found") (Js.lit "A") =
  Some (inl (Error "Failed to download video: Not Found")).
Proof.
  exact (@veo_reports_what_failed 0 (sdkDownloadFails "Not Found") (Js.lit "A")
           (mkOperation true (Some (Js.lit "https://v/1?alt=media")) 1)
           (mkOperation true (Some (Js.lit "https://v/1?alt=media")) 1)
           eq_refl eq_refl eq_refl
           (mkResponse false (Js.lit "Not Found") (inr sampleBlob))
           eq_refl eq_refl).
Defined.

(** X11 at the state in which the call for the first of three jobs is in
    flight. *)
Lemma client_prompts_witness :
  exists st, visited sampleUUID sampleClock st /\ In (Js.lit "A") (calls st) /\
             Js.trim (Js.lit "A") = Js.lit "A".
Proof.
  eval_to_state (runAll sampleUUID sampleClock 5
    [Connect true; TypeInput abcText; AddJobs; QueueEffect] initialState) st0 H0.
  assert (Hv : visited sampleUUID sampleClock st0).
  { apply visit_reachable.
    eapply runAll_reachable; [apply reach_init | exact H0]. }
  assert (Hin : In (Js.lit "A") (calls st0)) by (left; reflexivity).
  exists st0. split; [exact Hv|]. split; [exact Hin|].
  exact (proj2 (@client_gets_trimmed_prompts sampleUUID sampleClock st0
                  (Js.lit "A") Hv Hin)).
Defined.

(** X12 at the store right after a failed outcome write. *)
Lemma failed_card_witness :
  exists st j,
    visited sampleUUID sampleClock st /\ In j (jobs st) /\
    cv_retry (JobCard j) = Some (id j) /\
    cv_errorText (JobCard j) = Some (Js.lit "quota exceeded").
Proof.
  eval_to_state (runAll sampleUUID sampleClock 5
    [Connect true; TypeInput abcText; AddJobs; QueueEffect] initialState) st0 H0.
  let f := eval vm_compute in (awaiting st0) in
  match f with [?x] => pose (fr0 := x) end.
  pose (out := @inl JsError GenerateVideoResult (Error "quota exceeded")).
  pose (st1 := outcomeWrite sampleClock out (fr_job fr0) (dropFrame 0 st0)).
  assert (Hv : visited sampleUUID sampleClock st1).
  { apply (@visit_outcome sampleUUID sampleClock st0 0 fr0
             (sdkRejects "quota exceeded") 5 out).
    - eapply runAll_reachable; [apply reach_init | exact H0].
    - reflexivity.
    - vm_compute. reflexivity. }
  let l := eval vm_compute in (jobs st1) in
  match l with ?x :: _ => pose (j0 := x) end.
  assert (Hin : In j0 (jobs st1)) by (left; reflexivity).
  exists st1, j0. split; [exact Hv|]. split; [exact Hin|].
  destruct (@failed_card_shows_stored_message sampleUUID sampleClock st1 j0
              Hv Hin) as (Ht & _ & m & Hm & _ & Htext).
  split; [reflexivity|]. rewrite Htext. f_equal.
  assert (Hq : error j0 = Some (Js.lit "quota exceeded")) by reflexivity.
  rewrite Hq in Hm. now injection Hm.
Defined.

(** X13 at the state in which the call for the first of three jobs is in
    flight. *)
Lemma ids_stay_unique_witness :
  exists st, visited sampleUUID sampleClock st /\
             List.length (jobs st) = 3 /\ NoDup (map id (jobs st)).
Proof.
  eval_to_state (runAll sampleUUID sampleClock 5
    [Connect true; TypeInput abcText; AddJobs; QueueEffect] initialState) st0 H0.
  assert (Hv : visited sampleUUID sampleClock st0).
  { apply visit_reachable.
    eapply runAll_reachable; [apply reach_init | exact H0]. }
  exists st0. split; [exact Hv|]. split; [reflexivity|].
  exact (proj1 (@ids_stay_unique sampleUUID sampleClock st0
                  (fun m n H => Nat2N.inj m n
                     (f_equal (fun l => nth 4 l 0%N) H)) Hv)).
Defined.

(** X14 at a settling call. *)
Lemma jobs_keep_their_identity_witness :
  exists st st',
    run sampleUUID sampleClock 5 (Settle 0 sdkSucceeds) st = Some st' /\
    Forall2 sameIdentity (jobs st) (jobs st').
Proof.
  eval_to_state (runAll sampleUUID sampleClock 5
    [Connect true; TypeInput abcText; AddJobs; QueueEffect] initialState) st0 H0.
  eval_to_state (run sampleUUID sampleClock 5 (Settle 0 sdkSucceeds) st0) st1 H1.
  exists st0, st1. split; [exact H1|].
  exact (@jobs_keep_their_identity sampleUUID sampleClock 5
           (Settle 0 sdkSucceeds) st0 st1 H1 eq_refl).
Defined.

(** X15 at the state in which the call for the first of three jobs is in
    flight. *)
Lemma indicator_witness :
  exists st, visited sampleUUID sampleClock st /\ awaiting st <> [] /\
             isProcessing st = true.
Proof.
  eval_to_state (runAll sampleUUID sampleClock 5
    [Connect true; TypeInput abcText; AddJobs; QueueEffect] initialState) st0 H0.
  assert (Hv : visited sampleUUID sampleClock st0).
  { apply visit_reachable.
    eapply runAll_reachable; [apply reach_init | exact H0]. }
  assert (Hne : awaiting st0 <> []) by discriminate.
  exists st0. split; [exact Hv|]. split; [exact Hne|].
  exact (@indicator_on_while_in_flight sampleUUID sampleClock st0
           (fun m n H => Nat2N.inj m n (f_equal (fun l => nth 4 l 0%N) H))
           Hv Hne).
Defined.

(** X16 at [sampleStore], whose third job is the first PENDING one. *)
Lemma effect_admits_witness :
  exists st',
    queueEffect 1 sampleStore = Some st' /\
    calls st' = [Js.lit "C"] /\
    nth_error (jobs st') 2 = Some (withProcessing pendingJob) /\
    nth_error (jobs st') 0 = Some failedJob.
Proof.
  assert (Hnd : NoDup (map id (jobs sampleStore))).
  { repeat constructor; simpl; intuition discriminate. }
  assert (Hfirst : forall k y, k < 2 -> nth_error (jobs sampleStore) k = Some y ->
                               status y <> PENDING).
  { intros [|[|k]] y Hk Hy; simpl in Hy; try lia;
      injection Hy as <-; discriminate. }
  destruct (@effect_admits_first_pending sampleStore 2 pendingJob 0
              eq_refl eq_refl Hnd eq_refl eq_refl Hfirst)
    as (st' & Hq & Hjobs & Hcalls & _).
  exists st'. split; [exact Hq|]. split; [exact Hcalls|].
  split; [exact (Hjobs 2) | exact (Hjobs 0)].
Defined.

(** X17 at the store right after a successful outcome write. *)
Lemma card_duration_witness :
  exists st j,
    visited sampleUUID sampleClock st /\ In j (jobs st) /\
    cv_durationMs (JobCard j) = Some 3%Z /\ (0 <= 3)%Z.
Proof.
  eval_to_state (runAll sampleUUID sampleClock 5
    [Connect true; TypeInput abcText; AddJobs; QueueEffect] initialState) st0 H0.
  let f := eval vm_compute in (awaiting st0) in
  match f with [?x] => pose (fr0 := x) end.
  let o := eval vm_compute in
             (generateVideoWithVeo 5 sdkSucceeds (prompt (fr_job fr0))) in
  match o with Some ?x => pose (out := x) end.
  pose (st1 := outcomeWrite sampleClock out (fr_job fr0) (dropFrame 0 st0)).
  assert (Hv : visited sampleUUID sampleClock st1).
  { apply (@visit_outcome sampleUUID sampleClock st0 0 fr0 sdkSucceeds 5 out).
    - eapply runAll_reachable; [apply reach_init | exact H0].
    - reflexivity.
    - vm_compute. reflexivity. }
  let l := eval vm_compute in (jobs st1) in
  match l with ?x :: _ => pose (j0 := x) end.
  assert (Hin : In j0 (jobs st1)) by (left; reflexivity).
  assert (Hd : cv_durationMs (JobCard j0) = Some 3%Z) by reflexivity.
  exists st1, j0. split; [exact Hv|]. split; [exact Hin|]. split; [exact Hd|].
  exact (@card_duration_not_negative sampleUUID sampleClock st1 j0 3%Z
           (fun m n H => proj1 (Z.add_le_mono_l _ _ 1000)
                           (proj1 (Nat2Z.inj_le m n) H))
           Hv Hin Hd).
Defined.

(** X18 at the store with three jobs, on the card in the middle. *)
Lemma remove_button_witness :
  exists st card,
    visited sampleUUID sampleClock st /\
    nth_error (renderQueue st) 1 = Some card /\
    map cv_prompt (renderQueue (deleteJob (cv_delete card) st)) =
      [Js.lit "C"; Js.lit "A"].
Proof.
  eval_to_state (runAll sampleUUID sampleClock 5
    [Connect true; TypeInput abcText; AddJobs; QueueEffect] initialState) st0 H0.
  assert (Hv : visited sampleUUID sampleClock st0).
  { apply visit_reachable.
    eapply runAll_reachable; [apply reach_init | exact H0]. }
  let c := eval vm_compute in (nth_error (renderQueue st0) 1) in
  match c with Some ?x => pose (card0 := x) end.
  assert (Hk : nth_error (renderQueue st0) 1 = Some card0) by reflexivity.
  exists st0, card0. split; [exact Hv|]. split; [exact Hk|].
  rewrite (proj1 (@remove_button_removes_its_card sampleUUID sampleClock st0 1
                    card0
                    (fun m n H => Nat2N.inj m n
                       (f_equal (fun l => nth 4 l 0%N) H))
                    Hv Hk)).
  reflexivity.
Defined.

